(** * Replication core of the BFS nameserver: [MasterSlaveImpl]

    A shallow embedding of [src/nameserver/master_slave.cc] and the proofs of
    the properties that the specification states about it: the leader's
    write-ahead log [sync.log], the two overloads of [Log], the replication
    worker [BackgroundLog]/[ReplicateLog], and [Init].  The follower's
    handler [AppendLog] and the progress thread [LogProgress] do not write
    any field of the leader; they are modelled on their own, [AppendLog] also
    together with the leader that sends to it, and the last part of the file
    proves what the code shows about them and about restarts.

    Conventions of the model.

    - The counters [current_offset_] and [sync_offset_] are [int]s.  The
      functions of the leader come in two versions.  [Log_append],
      [Log_async], [ReplicateLog_confirm] and [ReplicateLog_advance], and
      [step], [run] and [reachable] built on them, compute the sums in [Z]:
      they are the code on a [sync.log] smaller than 2^31 bytes, where no
      [int] wraps.  [Log_append_int] and the others named [_int] store each
      [int] as the build does (modulo 2^32, two's complement; the language
      leaves signed overflow undefined) and are the code on any log.  The two
      agree below 2^31 bytes ([step_int_ideal], [reachable_ideal_int]); what
      is stated over [reachable] holds of the executions in that range, and
      the statements about the counters themselves are made over
      [reachable_int].  The 4-byte record header and the product
      [timeout_ms * 1000] are modelled bit for bit in both.
    - [memcpy] between an integer and a 4-byte buffer uses the byte order of
      the machine; the model fixes little-endian (x86-64).
    - A failed [assert] ends the process ([NDEBUG] is not defined), and so
      does [LOG(FATAL, ...)]: the function returns [Fatal] and there is no
      state afterwards.
    - [read] and [write] on the log are those of a regular file: [read]
      transfers the bytes that exist between the file position and the end
      of the file, at most the number asked for; [write] transfers all of
      its bytes at the end of the file.  ([AppendLog_rpc], which tests what
      its [write] calls return, takes their results as inputs.)
    - What the code gets from outside is an input of the model: the outcome
      of each [open], the clock [get_micros], the result of [TimeWait] and of
      [SendRequest]; for [LogProgress], what [write] returns, whether
      [rename] succeeds and the system call at which the process stops.  A
      [SendRequest] that returns false may or may not have been handled by
      the follower. *)

From Stdlib Require Import ZArith.
From Stdlib.Strings Require Import Byte.
From stdpp Require Import gmap strings list fin_maps.

Local Open Scope Z_scope.

(** ** Results of fallible code *)

(** Modelled from the spec: the macro [LOG] comes from [common/logging.h];
    the spec lists what the code logs at level [FATAL] as
    process-terminating.  [Fatal] is the process ended by [LOG(FATAL, ...)] or
    by a failed [assert]. *)
Inductive result (A : Type) : Type :=
  | Ok (a : A)
  | Fatal.
Arguments Ok {A} a.
Arguments Fatal {A}.

#[global] Instance result_ret : MRet result := fun _ a => Ok a.
#[global] Instance result_bind : MBind result := fun _ _ f r =>
  match r with
  | Ok a => f a
  | Fatal => Fatal
  end.

(** ** Bytes and the 4-byte header *)

Definition Z_of_byte (b : byte) : Z := Z.of_N (Byte.to_N b).

Definition byte_of_Z (z : Z) : byte :=
  default "000"%byte (Byte.of_N (Z.to_N (z mod 256))).

(** [memcpy(buf, &len, 4)]: the four bytes of a 32-bit integer, lowest first. *)
Definition encode_u32 (n : Z) : list byte :=
  [byte_of_Z n; byte_of_Z (n / 256); byte_of_Z (n / 65536); byte_of_Z (n / 16777216)].

(** [memcpy(&len, buf, 4)] into a [uint32_t]. *)
Definition decode_u32 (buf : list byte) : Z :=
  match buf with
  | [b0; b1; b2; b3] =>
      Z_of_byte b0 + 256 * Z_of_byte b1 + 65536 * Z_of_byte b2 + 16777216 * Z_of_byte b3
  | _ => 0
  end.

(** ** The type [int] *)

(** The conversion of an integer to [int], 32 bits in two's complement: the
    value that an [int] holds after an arithmetic operation whose exact
    result is [z], as the build computes it (the result wraps; the language
    leaves it undefined when the operands are signed). *)
Definition to_int (z : Z) : Z := (z + 2 ^ 31) mod 2 ^ 32 - 2 ^ 31.

(** ** Files *)

(** [read(fd, buf, count)] at file position [pos]: the bytes transferred.
    The file position moves forward by their number. *)
Definition file_read (file : list byte) (pos count : Z) : list byte :=
  take (Z.to_nat count) (drop (Z.to_nat pos) file).

(** The outcome of [open]: the file's contents, or the [errno] of the failure. *)
Inductive open_result : Type :=
  | Opened (content : list byte)
  | OpenFailed (errno : Z).

Definition ENOENT : Z := 2.

(** ** The object *)

(** A [boost::function<void (bool)>] is opaque to this code; the model names
    each one by a number. *)
Definition Callback : Type := nat.

(** Modelled from the spec: the declarations of [current_offset_] and
    [sync_offset_] are in [nameserver/sync.h], of which only the uses in
    [master_slave.cc] are known; the spec describes them as unsigned byte
    positions and the persisted progress record as an unsigned 4-byte value.

    [sync_log] is the contents of the file [sync.log], which [log_] appends
    to, and [read_log_pos] the file position of the descriptor [read_log_].

    [master_slave.cc] itself uses the two counters as [int]s
    ([int last_offset = current_offset_], the keys of [callbacks_], [%d]);
    the values of the fields are the integers that these [int]s hold. *)
Record MasterSlaveImpl : Type := mkMasterSlaveImpl {
  FLAGS_master_slave_role : string;
  sync_log : list byte;
  read_log_pos : Z;
  current_offset_ : Z;
  sync_offset_ : Z;
  master_only_ : bool;
  callbacks_ : gmap Z Callback;
}.

Definition set_sync_log (m : MasterSlaveImpl) (f : list byte) : MasterSlaveImpl :=
  mkMasterSlaveImpl (FLAGS_master_slave_role m) f (read_log_pos m) (current_offset_ m)
    (sync_offset_ m) (master_only_ m) (callbacks_ m).

Definition set_read_log_pos (m : MasterSlaveImpl) (p : Z) : MasterSlaveImpl :=
  mkMasterSlaveImpl (FLAGS_master_slave_role m) (sync_log m) p (current_offset_ m)
    (sync_offset_ m) (master_only_ m) (callbacks_ m).

Definition set_current_offset (m : MasterSlaveImpl) (o : Z) : MasterSlaveImpl :=
  mkMasterSlaveImpl (FLAGS_master_slave_role m) (sync_log m) (read_log_pos m) o
    (sync_offset_ m) (master_only_ m) (callbacks_ m).

Definition set_sync_offset (m : MasterSlaveImpl) (o : Z) : MasterSlaveImpl :=
  mkMasterSlaveImpl (FLAGS_master_slave_role m) (sync_log m) (read_log_pos m)
    (current_offset_ m) o (master_only_ m) (callbacks_ m).

Definition set_master_only (m : MasterSlaveImpl) (b : bool) : MasterSlaveImpl :=
  mkMasterSlaveImpl (FLAGS_master_slave_role m) (sync_log m) (read_log_pos m)
    (current_offset_ m) (sync_offset_ m) b (callbacks_ m).

Definition set_callbacks (m : MasterSlaveImpl) (c : gmap Z Callback) : MasterSlaveImpl :=
  mkMasterSlaveImpl (FLAGS_master_slave_role m) (sync_log m) (read_log_pos m)
    (current_offset_ m) (sync_offset_ m) (master_only_ m) c.

(** [write(log_, data, n)]: the bytes go to the end of [sync.log] (where
    [Init] left the position of [log_]); returns the number written. *)
Definition write_log (m : MasterSlaveImpl) (data : list byte) : MasterSlaveImpl * Z :=
  (set_sync_log m (sync_log m ++ data), Z.of_nat (length data)).

(** ** [MasterSlaveImpl::Init] *)

(** What [Init] finds on the machine: the role flag, and the outcome of each
    of its three [open] calls. *)
Record Environment : Type := mkEnvironment {
  env_role : string;
  open_prog_log : open_result;      (* open("prog.log", O_RDONLY) *)
  open_sync_log : open_result;      (* open("sync.log", O_WRONLY | O_CREAT, ...) *)
  open_read_log : option Z;         (* open("sync.log", O_RDONLY): None, or the errno *)
}.

(** The constructor: [current_offset_(0), sync_offset_(0), master_only_(false)]. *)
Definition constructed (role : string) : MasterSlaveImpl :=
  mkMasterSlaveImpl role [] 0 0 0 false ∅.

Definition Init (e : Environment) : result MasterSlaveImpl :=
  let m := constructed (env_role e) in
  (* recover sync_offset_ *)
  m1 ← match open_prog_log e with
       | OpenFailed errno =>
           if negb (errno =? ENOENT) then Fatal else Ok m
       | Opened content =>
           let buf := file_read content 0 4 in
           if Z.of_nat (length buf) =? 4
           then Ok (set_sync_offset m (decode_u32 buf))
           else Ok m
       end;
  match open_sync_log e with
  | OpenFailed _ => Fatal
  | Opened content =>
      let m2 := set_current_offset (set_sync_log m1 content) (Z.of_nat (length content)) in
      if negb (sync_offset_ m2 <=? current_offset_ m2) then Fatal   (* assert *)
      else
        match open_read_log e with
        | Some _ => Fatal
        | None => Ok (set_read_log_pos m2 (sync_offset_ m2))
        end
  end.

Definition IsLeader (m : MasterSlaveImpl) : bool :=
  String.eqb (FLAGS_master_slave_role m) "master".

(** ** [MasterSlaveImpl::LogLocal] *)

Definition LogLocal (m : MasterSlaveImpl) (entry : list byte) : result (MasterSlaveImpl * Z) :=
  if negb (IsLeader m) then Fatal
  else
    let len := Z.of_nat (length entry) in
    let buf := encode_u32 len in
    let '(m1, _) := write_log m buf in
    let '(m2, w) := write_log m1 entry in
    if negb (0 <=? w) then Fatal   (* assert(w >= 0) *)
    else Ok (m2, w + 4).

(** ** [MasterSlaveImpl::Log], both overloads

    Both start with the same locked section: [LogLocal], then
    [current_offset_ += len]. *)

(** [callbacks_.insert(std::make_pair(k, v))]: [std::map::insert] leaves an
    existing entry as it is. *)
Definition std_map_insert (k : Z) (v : Callback) (mp : gmap Z Callback) : gmap Z Callback :=
  match mp !! k with
  | Some _ => mp
  | None => <[k := v]> mp
  end.

(** The asynchronous overload, lines 109-120; all of it runs under [mu_]. *)
Definition Log_async (m : MasterSlaveImpl) (entry : list byte) (callback : Callback)
    : result MasterSlaveImpl :=
  '(m1, len) ← LogLocal m entry;
  let m2 := set_callbacks m1 (std_map_insert (current_offset_ m1) callback (callbacks_ m1)) in
  Ok (set_current_offset m2 (current_offset_ m2 + len)).

(** The synchronous overload gives up [mu_] after the append, reads the
    shared fields again at line 79 and at each turn of its loop, and sleeps in
    [TimeWait]; other threads run in between.  A call in progress is its
    position in the code, its arguments and its locals. *)
Inductive SyncPc : Type :=
  | AtCheck                 (* line 79, after mu_.Unlock() *)
  | AtLoop                  (* line 86, the while condition *)
  | InWait                  (* line 89, inside log_done_.TimeWait *)
  | Returned (r : bool).

Record SyncCall : Type := mkSyncCall {
  pc : SyncPc;
  entry : list byte;
  timeout_ms : Z;
  last_offset : Z;
  stop_point : Z;
}.

Definition at_pc (c : SyncCall) (p : SyncPc) : SyncCall :=
  mkSyncCall p (entry c) (timeout_ms c) (last_offset c) (stop_point c).

(** Lines 72-77: the locked append; returns [last_offset]. *)
Definition Log_append (m : MasterSlaveImpl) (entry : list byte) : result (MasterSlaveImpl * Z) :=
  '(m1, len) ← LogLocal m entry;
  let last_offset := current_offset_ m1 in
  Ok (set_current_offset m1 (current_offset_ m1 + len), last_offset).

(** Lines 79-85; [now] is what [get_micros] returns at line 84.  In
    [start_point + timeout_ms * 1000] the product is one of two [int]s, and is
    converted to [int64_t] only for the sum. *)
Definition Log_check (m : MasterSlaveImpl) (c : SyncCall) (now : Z) : MasterSlaveImpl * SyncCall :=
  if master_only_ m && (sync_offset_ m <? last_offset c)
  then (m, at_pc c (Returned true))
  else (m, mkSyncCall AtLoop (entry c) (timeout_ms c) (last_offset c)
             (now + to_int (timeout_ms c * 1000))).

(** Line 86, and lines 103-106 when the condition is false; [now] is what
    [get_micros] returns in the condition. *)
Definition Log_loop (m : MasterSlaveImpl) (c : SyncCall) (now : Z) : MasterSlaveImpl * SyncCall :=
  if negb (sync_offset_ m =? current_offset_ m) && (now <? stop_point c)
  then (m, at_pc c InWait)
  else (set_master_only m true, at_pc c (Returned true)).

(** Lines 89-101, and lines 103-106 after the [break]; [signalled] is what
    [TimeWait] returns. *)
Definition Log_wake (m : MasterSlaveImpl) (c : SyncCall) (signalled : bool)
    : MasterSlaveImpl * SyncCall :=
  if signalled then
    if negb (sync_offset_ m =? current_offset_ m) then (m, at_pc c AtLoop)
    else ((if master_only_ m then set_master_only m false else m), at_pc c (Returned true))
  else (set_master_only m true, at_pc c (Returned true)).

(** The loop of lines 86-102 in a caller that runs alone.  Each turn is a
    reading of the clock in the loop condition and what [TimeWait] returns if
    the caller gets to wait; after the last turn the clock has reached
    [stop_point]. *)
Fixpoint Log_turns (m : MasterSlaveImpl) (c : SyncCall) (turns : list (Z * bool))
    : MasterSlaveImpl * SyncCall :=
  match turns with
  | [] => Log_loop m c (stop_point c)
  | (now, signalled) :: turns' =>
      let '(m1, c1) := Log_loop m c now in
      match pc c1 with
      | InWait =>
          let '(m2, c2) := Log_wake m1 c1 signalled in
          match pc c2 with
          | AtLoop => Log_turns m2 c2 turns'
          | _ => (m2, c2)
          end
      | _ => (m1, c1)
      end
  end.

(** [Log(entry, timeout_ms)] from its first line to its [return], in a caller
    that runs alone; [now] is the clock at line 84. *)
Definition Log (m : MasterSlaveImpl) (entry : list byte) (timeout_ms now : Z)
    (turns : list (Z * bool)) : result (MasterSlaveImpl * SyncCall) :=
  '(m1, last_offset) ← Log_append m entry;
  let '(m2, c2) := Log_check m1 (mkSyncCall AtCheck entry timeout_ms last_offset 0) now in
  match pc c2 with
  | AtLoop => Ok (Log_turns m2 c2 turns)
  | _ => Ok (m2, c2)
  end.

(** ** [MasterSlaveImpl::ReplicateLog] *)

(** Lines 173-188 on the file alone: what the two [read] calls give at file
    position [pos], and where they leave the position. *)
Inductive read_outcome : Type :=
  | ShortHeader (pos' : Z)                            (* ret < 4 *)
  | ShortPayload (pos' : Z)                           (* ret < len *)
  | Record_ (len : Z) (entry : list byte) (pos' : Z).

Definition read_record (file : list byte) (pos : Z) : read_outcome :=
  let buf := file_read file pos 4 in
  let ret := Z.of_nat (length buf) in
  let pos1 := pos + ret in
  if ret <? 4 then ShortHeader pos1
  else
    let len := decode_u32 buf in
    let entry := file_read file pos1 len in
    let ret := Z.of_nat (length entry) in
    let pos2 := pos1 + ret in
    if ret <? len then ShortPayload pos2
    else Record_ len entry pos2.

(** The worker thread inside [ReplicateLog]. *)
Inductive WorkerPc : Type :=
  | WorkerLoop                                        (* line 161 *)
  | WorkerSending (len : Z) (entry : list byte)       (* lines 189-197 *)
  | WorkerInCallback (len : Z) (entry : list byte).   (* line 206, mu_ released *)

(** Lines 161-188.  When the loop condition is false [ReplicateLog] signals
    [log_done_] and returns, and [BackgroundLog] calls it again later; after
    the [return] of line 187 likewise. *)
Definition ReplicateLog_read (m : MasterSlaveImpl) : result (MasterSlaveImpl * WorkerPc) :=
  if negb (sync_offset_ m <? current_offset_ m) then Ok (m, WorkerLoop)
  else
    match read_record (sync_log m) (read_log_pos m) with
    | ShortHeader _ => Fatal                          (* assert(0) *)
    | ShortPayload pos' => Ok (set_read_log_pos m pos', WorkerLoop)
    | Record_ len entry pos' => Ok (set_read_log_pos m pos', WorkerSending len entry)
    end.

(** Lines 198-220, once [SendRequest] has returned true.  The third
    component is the call of line 206, if any: the key of the entry, the
    callback and its argument. *)
Definition ReplicateLog_confirm (m : MasterSlaveImpl) (len : Z) (entry : list byte)
    : result (MasterSlaveImpl * WorkerPc * option (Z * Callback * bool)) :=
  match callbacks_ m !! sync_offset_ m with
  | Some callback =>
      Ok (set_callbacks m (delete (sync_offset_ m) (callbacks_ m)),
          WorkerInCallback len entry,
          Some (sync_offset_ m, callback, true))
  | None =>
      if negb (sync_offset_ m =? 0) then Fatal        (* assert(0) *)
      else Ok (set_sync_offset m (sync_offset_ m + (4 + len)), WorkerLoop, None)
  end.

(** Lines 207 and 217-221, after the callback has returned. *)
Definition ReplicateLog_advance (m : MasterSlaveImpl) (len : Z) : MasterSlaveImpl * WorkerPc :=
  (set_sync_offset m (sync_offset_ m + (4 + len)), WorkerLoop).

(** ** The leader as a transition system

    The threads of the leader: any number of callers of [Log], and the worker
    that [Init] starts on [BackgroundLog].  (The second thread of [Init],
    [LogProgress], only reads [sync_offset_].)  A step is a stretch of one
    thread's code between two points where it can be preempted with [mu_]
    released; what runs under [mu_] is one step.

    The worker's two [read] calls run without [mu_] and are taken as one
    step.  They read below [current_offset_] as long as the log is made of
    whole records and the read position follows [sync_offset_]
    ([whole_records_step] below), so that a caller in the middle of
    [LogLocal], who writes above [current_offset_], cannot be seen. *)

#[global] Instance SyncPc_eq_dec : EqDecision SyncPc.
Proof. solve_decision. Defined.

Record Config : Type := mkConfig {
  node : MasterSlaveImpl;
  worker : WorkerPc;
  (* history, kept to state properties: *)
  calls : list SyncCall;                    (* the calls of the synchronous Log, by caller *)
  registered : list (Z * Callback);         (* the pairs given to callbacks_.insert *)
  invoked : list (Z * Callback * bool);     (* key, callback, argument; latest last *)
}.

Inductive Label : Type :=
  | CallLogSync (entry : list byte) (timeout_ms : Z)   (* a new caller runs lines 72-77 *)
  | SyncCheck (tid : nat) (now : Z)                    (* caller tid runs lines 79-85 *)
  | SyncLoop (tid : nat) (now : Z)                     (* caller tid evaluates line 86 *)
  | SyncWake (tid : nat) (signalled : bool)            (* TimeWait returns in caller tid *)
  | CallLogAsync (entry : list byte) (callback : Callback)
  | WorkerRead                                         (* lines 161-188 *)
  | WorkerRpc (ok : bool)                              (* SendRequest returns *)
  | WorkerCallbackReturns.                             (* line 206 returns *)

Definition step_call (tid : nat) (from : SyncPc)
    (f : MasterSlaveImpl → SyncCall → MasterSlaveImpl * SyncCall) (c : Config)
    : option (result Config) :=
  match calls c !! tid with
  | Some call =>
      if decide (pc call = from) then
        let '(m', call') := f (node c) call in
        Some (Ok (mkConfig m' (worker c) (<[tid := call']> (calls c)) (registered c) (invoked c)))
      else None
  | None => None
  end.

(** [None]: the thread is not at that point of its code. *)
Definition step (l : Label) (c : Config) : option (result Config) :=
  match l with
  | CallLogSync entry timeout_ms =>
      Some ('(m', last_offset) ← Log_append (node c) entry;
            Ok (mkConfig m' (worker c)
                  (calls c ++ [mkSyncCall AtCheck entry timeout_ms last_offset 0])
                  (registered c) (invoked c)))
  | SyncCheck tid now => step_call tid AtCheck (λ m call, Log_check m call now) c
  | SyncLoop tid now => step_call tid AtLoop (λ m call, Log_loop m call now) c
  | SyncWake tid signalled => step_call tid InWait (λ m call, Log_wake m call signalled) c
  | CallLogAsync entry callback =>
      Some (m' ← Log_async (node c) entry callback;
            Ok (mkConfig m' (worker c) (calls c)
                  (registered c ++ [(current_offset_ (node c), callback)]) (invoked c)))
  | WorkerRead =>
      match worker c with
      | WorkerLoop =>
          Some ('(m', w') ← ReplicateLog_read (node c);
                Ok (mkConfig m' w' (calls c) (registered c) (invoked c)))
      | _ => None
      end
  | WorkerRpc ok =>
      match worker c with
      | WorkerSending len entry =>
          if ok then
            Some ('(m', w', ev) ← ReplicateLog_confirm (node c) len entry;
                  Ok (mkConfig m' w' (calls c) (registered c) (invoked c ++ option_list ev)))
          else Some (Ok c)                             (* sleep(5), then send again *)
      | _ => None
      end
  | WorkerCallbackReturns =>
      match worker c with
      | WorkerInCallback len entry =>
          let '(m', w') := ReplicateLog_advance (node c) len in
          Some (Ok (mkConfig m' w' (calls c) (registered c) (invoked c)))
      | _ => None
      end
  end.

Fixpoint run (ls : list Label) (c : Config) : option (result Config) :=
  match ls with
  | [] => Some (Ok c)
  | l :: ls' =>
      match step l c with
      | Some (Ok c') => run ls' c'
      | r => r
      end
  end.

Definition initial (m : MasterSlaveImpl) : Config := mkConfig m WorkerLoop [] [] [].

(** The configurations a leader goes through after [Init]. *)
Inductive reachable : Config → Prop :=
  | reachable_init e m :
      Init e = Ok m → IsLeader m = true → reachable (initial m)
  | reachable_step c l c' :
      reachable c → step l c = Some (Ok c') → reachable c'.

(** A leader started on a machine with no [prog.log] and an empty [sync.log]. *)
Definition fresh_env : Environment :=
  mkEnvironment "master" (OpenFailed ENOENT) (Opened []) None.

Definition fresh : Config :=
  initial (mkMasterSlaveImpl "master" [] 0 0 0 false ∅).

(** ** Notions used in the statements *)

(** A local append through either overload of [Log]: the locked section of
    the synchronous one, or the asynchronous one with its callback. *)
Definition local_append (m : MasterSlaveImpl) (a : list byte * option Callback)
    : result MasterSlaveImpl :=
  match a.2 with
  | None => '(m', _) ← Log_append m a.1; Ok m'
  | Some callback => Log_async m a.1 callback
  end.

Fixpoint append_all (m : MasterSlaveImpl) (l : list (list byte * option Callback))
    : result MasterSlaveImpl :=
  match l with
  | [] => Ok m
  | a :: l' => m' ← local_append m a; append_all m' l'
  end.

(** The records that at most [n] rounds of the reads of [ReplicateLog] find
    in the file from position [pos] on. *)
Fixpoint read_all (n : nat) (file : list byte) (pos : Z) : list (list byte) :=
  match n with
  | O => []
  | S n' =>
      match read_record file pos with
      | Record_ _ entry pos' => entry :: read_all n' file pos'
      | _ => []
      end
  end.

(** The record as it lies in the file. *)
Definition frame (entry : list byte) : list byte :=
  encode_u32 (Z.of_nat (length entry)) ++ entry.

(** The label is a call of one of the overloads of [Log] with payload [entry]. *)
Definition is_append (l : Label) (entry : list byte) : Prop :=
  (∃ t, l = CallLogSync entry t) ∨ (∃ cb, l = CallLogAsync entry cb).

(** The label is one of the two places where the worker, holding the record
    [(len, entry)], executes [sync_offset_ += 4 + len]: line 217 reached with
    [mu_] held since the lookup missed, or after the callback has returned. *)
Definition is_advance (l : Label) (w : WorkerPc) (len : Z) (entry : list byte) : Prop :=
  (l = WorkerRpc true ∧ w = WorkerSending len entry)
  ∨ (l = WorkerCallbackReturns ∧ w = WorkerInCallback len entry).

(** The sum over the appends of the on-disk size of each record. *)
Definition total_size (l : list (list byte * option Callback)) : Z :=
  foldr (λ a acc, 4 + Z.of_nat (length a.1) + acc) 0 l.

(** [m'] is [m] but for [master_only_]. *)
Definition only_master_only (m m' : MasterSlaveImpl) : Prop :=
  ∃ b, m' = set_master_only m b.

(** The end of the last record the worker has taken off the file. *)
Definition frontier (c : Config) : Z :=
  match worker c with
  | WorkerLoop => sync_offset_ (node c)
  | WorkerSending len _ | WorkerInCallback len _ => sync_offset_ (node c) + (4 + len)
  end.

(** The read position of [read_log_] is at the end of the last record the
    worker has taken: at [sync_offset_] when the worker holds no record. *)
Definition follows (c : Config) : Prop := read_log_pos (node c) = frontier c.

(** From the read position on, the file is a sequence of whole records. *)
Definition whole_records (c : Config) : Prop :=
  ∃ entries : list (list byte),
    Forall (λ p, Z.of_nat (length p) < 2 ^ 32) entries
    ∧ drop (Z.to_nat (read_log_pos (node c))) (sync_log (node c)) = concat (frame <$> entries).

(** The payload of an append fits the 4-byte header. *)
Definition small_payload (l : Label) : Prop :=
  match l with
  | CallLogSync entry _ | CallLogAsync entry _ => Z.of_nat (length entry) < 2 ^ 32
  | _ => True
  end.

(** The record the worker holds is the one that ends at the read position. *)
Definition worker_record_ok (m : MasterSlaveImpl) (w : WorkerPc) : Prop :=
  match w with
  | WorkerLoop => True
  | WorkerSending len entry | WorkerInCallback len entry =>
      len = Z.of_nat (length entry)
      ∧ 0 ≤ read_log_pos m - (4 + len)
      ∧ read_record (sync_log m) (read_log_pos m - (4 + len))
        = Record_ len entry (read_log_pos m)
  end.

(** The invariant of the leader: the offsets and the file, the map of
    callbacks, and the history of calls, registrations and invocations. *)
Record Inv (c : Config) : Prop := mkInv {
  inv_leader : IsLeader (node c) = true;
  inv_sync_nonneg : 0 ≤ sync_offset_ (node c);
  inv_record : worker_record_ok (node c) (worker c);
  inv_frontier : frontier c ≤ read_log_pos (node c);
  inv_read_pos : read_log_pos (node c) ≤ Z.of_nat (length (sync_log (node c)));
  inv_size : Z.of_nat (length (sync_log (node c))) = current_offset_ (node c);
  inv_keys : ∀ k cb, callbacks_ (node c) !! k = Some cb →
      k < current_offset_ (node c) ∧ (k, cb) ∈ registered c;
  inv_calls : ∀ tid call, calls c !! tid = Some call →
      0 ≤ last_offset call
      ∧ last_offset call + (4 + Z.of_nat (length (entry call))) ≤ current_offset_ (node c)
      ∧ file_read (sync_log (node c)) (last_offset call)
          (4 + Z.of_nat (length (entry call))) = frame (entry call)
      ∧ callbacks_ (node c) !! last_offset call = None
      ∧ ∀ cb, (last_offset call, cb) ∉ registered c;
  inv_returned : ∀ tid call r, calls c !! tid = Some call → pc call = Returned r → r = true;
  inv_registered : ∀ k cb, (k, cb) ∈ registered c →
      k < current_offset_ (node c)
      ∧ (callbacks_ (node c) !! k = Some cb ∨ (k, cb, true) ∈ invoked c);
  inv_registered_nodup : NoDup (registered c).*1;
  inv_invoked : ∀ k cb b, (k, cb, b) ∈ invoked c →
      b = true ∧ (k, cb) ∈ registered c ∧ callbacks_ (node c) !! k = None;
  inv_invoked_nodup : NoDup ((λ ev, ev.1.1) <$> invoked c);
}.

(** ** [MasterSlaveImpl::AppendLog]

    The handler of the replication RPC, run on the follower.  It returns the
    node, the argument of the call of [log_callback_] (the function that
    [RegisterCallback] stored) and the [success] field of the response.

    This is the handler on a follower where [RegisterCallback] has been
    called, and with [write] calls that transfer all their bytes (the
    convention for [sync.log]); [AppendLog_rpc] below takes what [write]
    returns and the contents of [log_callback_] as inputs. *)
Definition AppendLog (m : MasterSlaveImpl) (log_data : list byte)
    : result (MasterSlaveImpl * list byte * bool) :=
  let len := Z.of_nat (length log_data) in
  let buf := encode_u32 len in
  let '(m1, ret) := write_log m buf in
  if negb (ret =? 4) then Fatal                       (* assert(ret == 4) *)
  else
    let '(m2, ret) := write_log m1 log_data in
    if negb (ret =? len) then Fatal                   (* assert(ret == len) *)
    else Ok (m2, log_data, true).

(** ** [MasterSlaveImpl::RegisterCallback], and [AppendLog] in general *)

(** A [boost::function<void (const std::string&)>], named by a number like
    the callbacks of [Log]. *)
Definition LogCallback : Type := nat.

(** The follower: the object, and its member [log_callback_], which is empty
    (a default-constructed [boost::function]) until [RegisterCallback] is
    called. *)
Record Follower : Type := mkFollower {
  fnode : MasterSlaveImpl;
  log_callback_ : option LogCallback;
}.

Definition RegisterCallback (f : Follower) (callback : LogCallback) : Follower :=
  mkFollower (fnode f) (Some callback).

(** A [write(log_, data, n)] that returns [ret]: it has transferred the
    first [ret] bytes of [data] to the end of [sync.log]; none when it failed
    and [ret] is -1. *)
Definition write_log_ret (m : MasterSlaveImpl) (data : list byte) (ret : Z) : MasterSlaveImpl :=
  set_sync_log m (sync_log m ++ take (Z.to_nat ret) data).

(** How a call of the handler ends: [done->Run()] after the call of
    [log_callback_] with [arg] and [set_success(success)]; a failed [assert],
    which ends the process; or the [boost::bad_function_call] that the call of
    an empty [boost::function] throws, before any response is set. *)
Inductive AppendLog_outcome : Type :=
  | Answered (f : Follower) (called : LogCallback) (arg : list byte) (success : bool)
  | AssertionFailed
  | BadFunctionCall (f : Follower).

(** Lines 130-140; [ret1] and [ret2] are what the two [write] calls return
    (a [write] transfers less than 2^31 bytes, so that its result fits the
    [int ret]). *)
Definition AppendLog_rpc (f : Follower) (log_data : list byte) (ret1 ret2 : Z)
    : AppendLog_outcome :=
  let len := to_int (Z.of_nat (length log_data)) in   (* int len = ...size() *)
  let buf := encode_u32 len in
  let m1 := write_log_ret (fnode f) buf ret1 in
  if negb (ret1 =? 4) then AssertionFailed            (* assert(ret == 4) *)
  else
    let m2 := write_log_ret m1 log_data ret2 in
    if negb (ret2 =? len) then AssertionFailed        (* assert(ret == len) *)
    else
      match log_callback_ f with
      | None => BadFunctionCall (mkFollower m2 None)
      | Some callback => Answered (mkFollower m2 (Some callback)) callback log_data true
      end.

(** ** [MasterSlaveImpl::LogProgress] *)

(** The two files of the progress record; [None]: the file does not exist. *)
Record ProgressFiles : Type := mkProgressFiles {
  prog_tmp : option (list byte);
  prog_log : option (list byte);
}.

(** A [write] of [data] at position 0 of a file that [open] did not
    truncate. *)
Definition overwrite (old data : list byte) : list byte :=
  data ++ drop (length data) old.

(** One turn of the loop, lines 229-239, after the [sleep].  [open_errno] is
    the failure of [open], if any; [ret] what [write] returns (it has
    transferred the first [ret] bytes of [buf]); [rename_ok] whether [rename]
    succeeds.  [upto] is the number of system calls, of [open], [write] and
    [rename], after which the process stops: 3 or more for a whole turn. *)
Definition LogProgress_turn (m : MasterSlaveImpl) (open_errno : option Z) (ret : Z)
    (rename_ok : bool) (upto : nat) (fs : ProgressFiles) : result ProgressFiles :=
  match upto with
  | O => Ok fs
  | S upto1 =>
      match open_errno with
      | Some _ => Fatal
      | None =>
          (* O_WRONLY | O_CREAT: an existing prog.tmp keeps its contents *)
          let old := default [] (prog_tmp fs) in
          match upto1 with
          | O => Ok (mkProgressFiles (Some old) (prog_log fs))
          | S upto2 =>
              let buf := encode_u32 (sync_offset_ m) in
              let tmp := overwrite old (take (Z.to_nat ret) buf) in
              match upto2 with
              | O => Ok (mkProgressFiles (Some tmp) (prog_log fs))
              | S _ =>
                  if (ret =? 4) && rename_ok
                  then Ok (mkProgressFiles None (Some tmp))
                  else Ok (mkProgressFiles (Some tmp) (prog_log fs))
              end
          end
      end
  end.

(** What the next [Init] finds when it opens [prog.log]. *)
Definition open_of (f : option (list byte)) : open_result :=
  match f with
  | Some content => Opened content
  | None => OpenFailed ENOENT
  end.

(** The offset that lines 30-42 of [Init] recover from [prog.log]. *)
Definition recovered_offset (r : open_result) : Z :=
  match r with
  | Opened content =>
      if Z.of_nat (length (file_read content 0 4)) =? 4
      then decode_u32 (file_read content 0 4)
      else 0
  | OpenFailed _ => 0
  end.

(** ** [MasterSlaveImpl::ReplicateLog] as a whole

    The loop of lines 161-222 with the worker running alone and every
    [SendRequest] answered: a turn reads a record, gets it confirmed and, if a
    callback was found, lets it return.  The function returns when the loop
    condition is false (line 223) or at the [return] of line 187.  [None]:
    [fuel] turns did not reach the end of the loop. *)
Fixpoint ReplicateLog (fuel : nat) (c : Config) : option (result Config) :=
  match fuel with
  | O => None
  | S fuel' =>
      match step WorkerRead c with
      | Some (Ok c1) =>
          match worker c1 with
          | WorkerSending _ _ =>
              match step (WorkerRpc true) c1 with
              | Some (Ok c2) =>
                  match worker c2 with
                  | WorkerInCallback _ _ =>
                      match step WorkerCallbackReturns c2 with
                      | Some (Ok c3) => ReplicateLog fuel' c3
                      | r => r
                      end
                  | _ => ReplicateLog fuel' c2
                  end
              | r => r
              end
          | _ => Some (Ok c1)
          end
      | r => r
      end
  end.

(** The entries of [callbacks_] after asynchronous appends of [l] from offset
    [off] on, and the calls that draining them makes. *)
Fixpoint pending (off : Z) (l : list (list byte * Callback)) : gmap Z Callback :=
  match l with
  | [] => ∅
  | (p, cb) :: l' => <[off := cb]> (pending (off + (4 + Z.of_nat (length p))) l')
  end.

Fixpoint calls_of (off : Z) (l : list (list byte * Callback)) : list (Z * Callback * bool) :=
  match l with
  | [] => []
  | (p, cb) :: l' => (off, cb, true) :: calls_of (off + (4 + Z.of_nat (length p))) l'
  end.

(** ** Leader and follower together

    The leader's configuration, the follower's node and the payloads that the
    follower has passed to [log_callback_].  A [SendRequest] of the worker
    either does not reach the follower, or reaches it without the answer
    coming back before the timeout (both return false), or is answered. *)
Inductive Delivery : Type :=
  | NotDelivered
  | DeliveredNoReply
  | Replied.

Record Cluster : Type := mkCluster {
  leader : Config;
  follower : MasterSlaveImpl;
  applied : list (list byte);
}.

Inductive ClusterLabel : Type :=
  | OnLeader (l : Label)          (* a step of the leader other than SendRequest *)
  | Send (d : Delivery).

Definition on_leader (cl : Cluster) (r : option (result Config)) : option (result Cluster) :=
  match r with
  | Some (Ok c') => Some (Ok (mkCluster c' (follower cl) (applied cl)))
  | Some Fatal => Some Fatal
  | None => None
  end.

(** The follower handles [request], whose [log_data] is
    [std::string(entry, len)], then the leader's [SendRequest] returns. *)
Definition deliver (cl : Cluster) (len : Z) (entry : list byte) (ok : bool)
    : option (result Cluster) :=
  match AppendLog (follower cl) (take (Z.to_nat len) entry) with
  | Ok (f', data, _) =>
      on_leader (mkCluster (leader cl) f' (applied cl ++ [data])) (step (WorkerRpc ok) (leader cl))
  | Fatal => Some Fatal
  end.

Definition cluster_step (l : ClusterLabel) (cl : Cluster) : option (result Cluster) :=
  match l with
  | OnLeader (WorkerRpc _) => None
  | OnLeader l' => on_leader cl (step l' (leader cl))
  | Send d =>
      match worker (leader cl) with
      | WorkerSending len entry =>
          match d with
          | NotDelivered => on_leader cl (step (WorkerRpc false) (leader cl))
          | DeliveredNoReply => deliver cl len entry false
          | Replied => deliver cl len entry true
          end
      | _ => None
      end
  end.

Fixpoint cluster_run (ls : list ClusterLabel) (cl : Cluster) : option (result Cluster) :=
  match ls with
  | [] => Some (Ok cl)
  | l :: ls' =>
      match cluster_step l cl with
      | Some (Ok cl') => cluster_run ls' cl'
      | r => r
      end
  end.

(** A fresh leader and a follower with an empty log. *)
Definition fresh_cluster : Cluster :=
  mkCluster fresh (mkMasterSlaveImpl "slave" [] 0 0 0 false ∅) [].

(** The offset up to which the follower has answered: [sync_offset_], and the
    record in hand too while its callback runs. *)
Definition acked_upto (c : Config) : Z :=
  match worker c with
  | WorkerInCallback len _ => sync_offset_ (node c) + (4 + len)
  | _ => sync_offset_ (node c)
  end.

Definition cluster_small (l : ClusterLabel) : Prop :=
  match l with
  | OnLeader l' => small_payload l'
  | Send _ => True
  end.

(** No answer of the follower is lost. *)
Definition no_lost_reply (l : ClusterLabel) : Prop :=
  match l with
  | Send DeliveredNoReply => False
  | _ => True
  end.

(** The asynchronous appends of the payloads of [l] with their callbacks. *)
Definition async_calls (l : list (list byte * Callback)) : list Label :=
  (λ a, CallLogAsync a.1 a.2) <$> l.

(** The file that the records [ps] make. *)
Definition log_of (ps : list (list byte)) : list byte := concat (frame <$> ps).

(** What holds of leader and follower together: the leader's read position
    follows [sync_offset_] over a log of whole records, the follower's log is
    made of the payloads it has applied, and the records that lie below
    [acked_upto] in the leader's log are among them, in their order; they are
    all of them when [lossless]. *)
Definition cluster_inv (lossless : bool) (cl : Cluster) : Prop :=
  reachable (leader cl) ∧ follows (leader cl) ∧ whole_records (leader cl)
  ∧ sync_log (follower cl) = log_of (applied cl)
  ∧ ∃ acked : list (list byte),
      log_of acked
      = take (Z.to_nat (acked_upto (leader cl))) (sync_log (node (leader cl)))
      ∧ acked `sublist_of` applied cl
      ∧ (lossless = true → applied cl = acked).

(** What a step can do to the node: the six writes of the leader's code. *)
Inductive node_step (c : Config) : MasterSlaveImpl → Prop :=
  | node_flag b :                                   (* lines 95, 105; or nothing *)
      node_step c (set_master_only (node c) b)
  | node_append entry :                             (* lines 73-75 *)
      node_step c
        (set_current_offset (set_sync_log (node c) (sync_log (node c) ++ frame entry))
           (current_offset_ (node c) + (Z.of_nat (length entry) + 4)))
  | node_async entry cb :                           (* lines 112-116 *)
      node_step c
        (set_current_offset
           (set_callbacks (set_sync_log (node c) (sync_log (node c) ++ frame entry))
              (std_map_insert (current_offset_ (node c)) cb (callbacks_ (node c))))
           (current_offset_ (node c) + (Z.of_nat (length entry) + 4)))
  | node_read pos' :                                (* lines 174, 184 *)
      worker c = WorkerLoop →
      (∃ len entry, read_record (sync_log (node c)) (read_log_pos (node c))
                    = Record_ len entry pos')
      ∨ read_record (sync_log (node c)) (read_log_pos (node c)) = ShortPayload pos' →
      node_step c (set_read_log_pos (node c) pos')
  | node_erase len entry cb :                       (* line 203 *)
      worker c = WorkerSending len entry →
      callbacks_ (node c) !! sync_offset_ (node c) = Some cb →
      node_step c (set_callbacks (node c) (delete (sync_offset_ (node c)) (callbacks_ (node c))))
  | node_advance len entry :                        (* line 217 *)
      worker c = WorkerSending len entry ∨ worker c = WorkerInCallback len entry →
      node_step c (set_sync_offset (node c) (sync_offset_ (node c) + (4 + len))).

(** ** The counters as the build stores them

    [current_offset_] and [sync_offset_] are used as [int]s throughout
    ([int last_offset = current_offset_], the keys of [std::map<int, ...>],
    [%d]).  [Log_append], [Log_async] and the worker's
    [sync_offset_ += 4 + len] above compute their sums in [Z]: that is the
    code as long as [sync.log] is smaller than 2^31 bytes ([step_int_ideal]
    below).  The definitions of this section are the same lines with every
    [int] stored as the build stores it, so that they describe the code on
    larger logs too. *)

Definition LogLocal_int (m : MasterSlaveImpl) (entry : list byte)
    : result (MasterSlaveImpl * Z) :=
  if negb (IsLeader m) then Fatal
  else
    let len := to_int (Z.of_nat (length entry)) in    (* int len = entry.length() *)
    let buf := encode_u32 len in
    let '(m1, _) := write_log m buf in
    let '(m2, w) := write_log m1 entry in
    let w := to_int w in                              (* int w = write(...) *)
    if negb (0 <=? w) then Fatal   (* assert(w >= 0) *)
    else Ok (m2, to_int (w + 4)).

(** Lines 72-77. *)
Definition Log_append_int (m : MasterSlaveImpl) (entry : list byte)
    : result (MasterSlaveImpl * Z) :=
  '(m1, len) ← LogLocal_int m entry;
  let last_offset := current_offset_ m1 in
  Ok (set_current_offset m1 (to_int (current_offset_ m1 + len)), last_offset).

(** Lines 109-120. *)
Definition Log_async_int (m : MasterSlaveImpl) (entry : list byte) (callback : Callback)
    : result MasterSlaveImpl :=
  '(m1, len) ← LogLocal_int m entry;
  let m2 := set_callbacks m1 (std_map_insert (current_offset_ m1) callback (callbacks_ m1)) in
  Ok (set_current_offset m2 (to_int (current_offset_ m2 + len))).

(** Line 217: [4 + len] is a sum of [uint32_t], and its sum with
    [sync_offset_] is stored in an [int]. *)
Definition advance_int (m : MasterSlaveImpl) (len : Z) : MasterSlaveImpl :=
  set_sync_offset m (to_int (sync_offset_ m + (4 + len) mod 2 ^ 32)).

(** Lines 198-220. *)
Definition ReplicateLog_confirm_int (m : MasterSlaveImpl) (len : Z) (entry : list byte)
    : result (MasterSlaveImpl * WorkerPc * option (Z * Callback * bool)) :=
  match callbacks_ m !! sync_offset_ m with
  | Some callback =>
      Ok (set_callbacks m (delete (sync_offset_ m) (callbacks_ m)),
          WorkerInCallback len entry,
          Some (sync_offset_ m, callback, true))
  | None =>
      if negb (sync_offset_ m =? 0) then Fatal        (* assert(0) *)
      else Ok (advance_int m len, WorkerLoop, None)
  end.

(** Lines 207 and 217-221. *)
Definition ReplicateLog_advance_int (m : MasterSlaveImpl) (len : Z) : MasterSlaveImpl * WorkerPc :=
  (advance_int m len, WorkerLoop).

(** The steps of the leader's threads; those that add nothing to a counter
    are the steps of [step]. *)
Definition step_int (l : Label) (c : Config) : option (result Config) :=
  match l with
  | CallLogSync entry timeout_ms =>
      Some ('(m', last_offset) ← Log_append_int (node c) entry;
            Ok (mkConfig m' (worker c)
                  (calls c ++ [mkSyncCall AtCheck entry timeout_ms last_offset 0])
                  (registered c) (invoked c)))
  | CallLogAsync entry callback =>
      Some (m' ← Log_async_int (node c) entry callback;
            Ok (mkConfig m' (worker c) (calls c)
                  (registered c ++ [(current_offset_ (node c), callback)]) (invoked c)))
  | WorkerRpc true =>
      match worker c with
      | WorkerSending len entry =>
          Some ('(m', w', ev) ← ReplicateLog_confirm_int (node c) len entry;
                Ok (mkConfig m' w' (calls c) (registered c) (invoked c ++ option_list ev)))
      | _ => None
      end
  | WorkerCallbackReturns =>
      match worker c with
      | WorkerInCallback len entry =>
          let '(m', w') := ReplicateLog_advance_int (node c) len in
          Some (Ok (mkConfig m' w' (calls c) (registered c) (invoked c)))
      | _ => None
      end
  | SyncCheck _ _ | SyncLoop _ _ | SyncWake _ _ | WorkerRead | WorkerRpc false => step l c
  end.

Fixpoint run_int (ls : list Label) (c : Config) : option (result Config) :=
  match ls with
  | [] => Some (Ok c)
  | l :: ls' =>
      match step_int l c with
      | Some (Ok c') => run_int ls' c'
      | r => r
      end
  end.

(** The configurations of a leader that [Init] has started on a log smaller
    than 2^31 bytes: the result of [lseek] at line 48 fits [current_offset_],
    and the offset recovered from [prog.log], which is not above it, fits
    [sync_offset_]. *)
Inductive reachable_int : Config → Prop :=
  | reachable_int_init e m :
      Init e = Ok m → IsLeader m = true → current_offset_ m < 2 ^ 31 →
      reachable_int (initial m)
  | reachable_int_step c l c' :
      reachable_int c → step_int l c = Some (Ok c') → reachable_int c'.

Definition local_append_int (m : MasterSlaveImpl) (a : list byte * option Callback)
    : result MasterSlaveImpl :=
  match a.2 with
  | None => '(m', _) ← Log_append_int m a.1; Ok m'
  | Some callback => Log_async_int m a.1 callback
  end.

Fixpoint append_all_int (m : MasterSlaveImpl) (l : list (list byte * option Callback))
    : result MasterSlaveImpl :=
  match l with
  | [] => Ok m
  | a :: l' => m' ← local_append_int m a; append_all_int m' l'
  end.

(** ** Concrete runs *)

(** A leader that starts on the log of [sending_second], with a progress
    file that holds 5. *)
Definition restart_env : Environment :=
  mkEnvironment "master" (Opened ["005"; "000"; "000"; "000"]%byte)
    (Opened ["001"; "000"; "000"; "000"; "a"; "002"; "000"; "000"; "000"; "b"; "c"]%byte)
    None.

(** A [sync.log] that ends in a torn record: the header announces 5 bytes of
    payload, 2 are there. *)
Definition torn_log : list byte := ["005"; "000"; "000"; "000"; "a"; "b"]%byte.

Definition torn_env : Environment :=
  mkEnvironment "master" (OpenFailed ENOENT) (Opened torn_log) None.

(** On a fresh leader: an asynchronous append of "a" with callback 7, a
    synchronous append of "bc"; the worker replicates the first record and
    has the second one in hand. *)
Definition two_appends : list Label :=
  [CallLogAsync ["a"%byte] 7%nat; CallLogSync ["b"; "c"]%byte 1000;
   WorkerRead; WorkerRpc true; WorkerCallbackReturns; WorkerRead].

Definition sending_second : Config :=
  mkConfig
    (mkMasterSlaveImpl "master"
       ["001"; "000"; "000"; "000"; "a"; "002"; "000"; "000"; "000"; "b"; "c"]%byte
       11 11 5 false ∅)
    (WorkerSending 2 ["b"; "c"]%byte)
    [mkSyncCall AtCheck ["b"; "c"]%byte 1000 5 0]
    [(0, 7%nat)]
    [(0, 7%nat, true)].

(** On a fresh leader: a synchronous append of "a" that the worker replicates
    before the caller reaches line 86; the caller then reads the clock at 1
    microsecond, with a timeout of 1000 ms. *)
Definition caught_up_early : list Label :=
  [CallLogSync ["a"%byte] 1000; WorkerRead; WorkerRpc true;
   SyncCheck 0%nat 0; SyncLoop 0%nat 1].

(** A [sync.log] of 2147483644 bytes, 4 less than 2^31 (536870911 records
    with an empty payload), and the machine of a leader that starts on it
    with no [prog.log]. *)
Definition big_log : list byte := replicate (Z.to_nat 2147483644) "000"%byte.

Definition big_env : Environment :=
  mkEnvironment "master" (OpenFailed ENOENT) (Opened big_log) None.

(** A payload of 2^30 - 4 bytes: its record takes 2^30 bytes of the file. *)
Definition big_payload : list byte := replicate (Z.to_nat 1073741820) "a"%byte.

(** * Proofs *)

(** ** Bytes, headers and reads *)

Lemma to_int_id (z : Z) : - 2 ^ 31 ≤ z < 2 ^ 31 → to_int z = z.
Proof.
  change (2 ^ 31) with 2147483648. intros Hz. unfold to_int.
  change (2 ^ 31) with 2147483648. change (2 ^ 32) with 4294967296.
  rewrite Z.mod_small by lia. lia.
Qed.

Lemma Z_of_byte_range (b : byte) : 0 ≤ Z_of_byte b < 256.
Proof.
  unfold Z_of_byte. pose proof (Byte.to_N_bounded b). lia.
Qed.

Lemma Z_of_byte_of_Z (z : Z) : Z_of_byte (byte_of_Z z) = z mod 256.
Proof.
  unfold Z_of_byte, byte_of_Z.
  assert (Hr : 0 ≤ z mod 256 < 256) by (apply Z.mod_pos_bound; lia).
  destruct (Byte.of_N (Z.to_N (z mod 256))) as [b|] eqn:E.
  - apply Byte.to_of_N in E. simpl. rewrite E. lia.
  - apply Byte.of_N_None_iff in E. lia.
Qed.

Lemma decode_u32_range (buf : list byte) : 0 ≤ decode_u32 buf < 2 ^ 32.
Proof.
  unfold decode_u32.
  destruct buf as [|b0 [|b1 [|b2 [|b3 [|]]]]]; try (change (2 ^ 32) with 4294967296; lia).
  pose proof (Z_of_byte_range b0). pose proof (Z_of_byte_range b1).
  pose proof (Z_of_byte_range b2). pose proof (Z_of_byte_range b3).
  change (2 ^ 32) with 4294967296. lia.
Qed.

Lemma encode_u32_length (n : Z) : length (encode_u32 n) = 4%nat.
Proof. reflexivity. Qed.

Lemma decode_encode_u32 (n : Z) : 0 ≤ n < 2 ^ 32 → decode_u32 (encode_u32 n) = n.
Proof.
  intros Hn. change (2 ^ 32) with 4294967296 in Hn.
  unfold decode_u32, encode_u32. rewrite !Z_of_byte_of_Z.
  Z.div_mod_to_equations. lia.
Qed.

Lemma file_read_length (file : list byte) (pos count : Z) :
  0 ≤ pos → 0 ≤ count →
  Z.of_nat (length (file_read file pos count))
  = Z.min count (Z.max 0 (Z.of_nat (length file) - pos)).
Proof.
  intros Hp Hc. unfold file_read. rewrite length_take, length_drop. lia.
Qed.

(** A read at position [|pre|] of a file [pre ++ data ++ rest] for [|data|]
    bytes transfers [data]. *)
Lemma file_read_app (pre data rest : list byte) :
  file_read (pre ++ data ++ rest) (Z.of_nat (length pre)) (Z.of_nat (length data)) = data.
Proof.
  unfold file_read. rewrite !Nat2Z.id, drop_app_length, take_app_length. reflexivity.
Qed.

(** Where the two reads of a drain step leave the file position. *)
Lemma read_record_spec (file : list byte) (pos : Z) :
  0 ≤ pos ≤ Z.of_nat (length file) →
  match read_record file pos with
  | ShortHeader pos' => pos ≤ pos' ≤ Z.of_nat (length file)
  | ShortPayload pos' => pos + 4 ≤ pos' ≤ Z.of_nat (length file)
  | Record_ len entry pos' =>
      0 ≤ len ∧ len = Z.of_nat (length entry) ∧ pos' = pos + 4 + len
      ∧ pos' ≤ Z.of_nat (length file)
  end.
Proof.
  intros Hp. unfold read_record.
  pose proof (file_read_length file pos 4 ltac:(lia) ltac:(lia)) as H4.
  destruct (Z.ltb_spec (Z.of_nat (length (file_read file pos 4))) 4) as [Hs|Hs]; [lia|].
  pose proof (decode_u32_range (file_read file pos 4)) as Hd.
  set (len := decode_u32 (file_read file pos 4)) in *.
  set (pos1 := pos + Z.of_nat (length (file_read file pos 4))) in *.
  pose proof (file_read_length file pos1 len ltac:(lia) ltac:(lia)) as Hl.
  destruct (Z.ltb_spec (Z.of_nat (length (file_read file pos1 len))) len) as [Hs'|Hs']; lia.
Qed.

(** ** The append path *)

Lemma frame_length (entry : list byte) :
  Z.of_nat (length (frame entry)) = 4 + Z.of_nat (length entry).
Proof. unfold frame. rewrite length_app, encode_u32_length. lia. Qed.

Lemma LogLocal_leader (m : MasterSlaveImpl) (entry : list byte) :
  IsLeader m = true →
  LogLocal m entry
  = Ok (set_sync_log m (sync_log m ++ frame entry), Z.of_nat (length entry) + 4).
Proof.
  intros Hl. unfold LogLocal, write_log, frame. rewrite Hl. simpl.
  destruct (Z.leb_spec 0 (Z.of_nat (length entry))) as [_|]; [|lia]. simpl.
  unfold set_sync_log. simpl. rewrite <- app_assoc. reflexivity.
Qed.

Lemma frame_eq (entry : list byte) :
  frame entry = encode_u32 (Z.of_nat (length entry)) ++ entry.
Proof. reflexivity. Qed.

#[global] Opaque frame.

Lemma LogLocal_follower (m : MasterSlaveImpl) (entry : list byte) :
  IsLeader m = false → LogLocal m entry = Fatal.
Proof. intros Hl. unfold LogLocal. rewrite Hl. reflexivity. Qed.

(** On a follower both overloads of [Log] end the process in [LogLocal]. *)
Lemma Log_append_Ok (m m' : MasterSlaveImpl) (entry : list byte) (last : Z) :
  Log_append m entry = Ok (m', last) →
  IsLeader m = true
  ∧ last = current_offset_ m
  ∧ m' = set_current_offset (set_sync_log m (sync_log m ++ frame entry))
           (current_offset_ m + (Z.of_nat (length entry) + 4)).
Proof.
  unfold Log_append. destruct (IsLeader m) eqn:Hl.
  - rewrite LogLocal_leader by done. simpl. intros [= <- <-]. done.
  - rewrite LogLocal_follower by done. done.
Qed.

Lemma Log_async_Ok (m m' : MasterSlaveImpl) (entry : list byte) (cb : Callback) :
  Log_async m entry cb = Ok m' →
  IsLeader m = true
  ∧ m' = set_current_offset
           (set_callbacks (set_sync_log m (sync_log m ++ frame entry))
              (std_map_insert (current_offset_ m) cb (callbacks_ m)))
           (current_offset_ m + (Z.of_nat (length entry) + 4)).
Proof.
  unfold Log_async. destruct (IsLeader m) eqn:Hl.
  - rewrite LogLocal_leader by done. simpl. intros [= <-]. done.
  - rewrite LogLocal_follower by done. done.
Qed.

Lemma Log_append_leader (m : MasterSlaveImpl) (entry : list byte) :
  IsLeader m = true →
  Log_append m entry
  = Ok (set_current_offset (set_sync_log m (sync_log m ++ frame entry))
          (current_offset_ m + (Z.of_nat (length entry) + 4)),
        current_offset_ m).
Proof. intros Hl. unfold Log_append. by rewrite LogLocal_leader. Qed.

Lemma Log_async_leader (m : MasterSlaveImpl) (entry : list byte) (cb : Callback) :
  IsLeader m = true →
  Log_async m entry cb
  = Ok (set_current_offset
          (set_callbacks (set_sync_log m (sync_log m ++ frame entry))
             (std_map_insert (current_offset_ m) cb (callbacks_ m)))
          (current_offset_ m + (Z.of_nat (length entry) + 4))).
Proof. intros Hl. unfold Log_async. by rewrite LogLocal_leader. Qed.

(** The three later stretches of the synchronous [Log] write no field but
    [master_only_], and keep the call's locals. *)
Lemma only_master_only_refl (m : MasterSlaveImpl) : only_master_only m m.
Proof. exists (master_only_ m). by destruct m. Qed.

Lemma Log_check_frame (m m' : MasterSlaveImpl) (call call' : SyncCall) (now : Z) :
  Log_check m call now = (m', call') →
  m' = m ∧ last_offset call' = last_offset call ∧ entry call' = entry call
  ∧ (∀ r, pc call' = Returned r → r = true).
Proof.
  unfold Log_check. destruct (_ && _); intros [= <- <-]; simpl; naive_solver.
Qed.

Lemma Log_loop_frame (m m' : MasterSlaveImpl) (call call' : SyncCall) (now : Z) :
  Log_loop m call now = (m', call') →
  only_master_only m m' ∧ last_offset call' = last_offset call
  ∧ entry call' = entry call
  ∧ (∀ r, pc call' = Returned r → r = true).
Proof.
  unfold Log_loop. destruct (_ && _); intros [= <- <-]; simpl;
    (split; [first [apply only_master_only_refl | by eexists] | naive_solver]).
Qed.

Lemma Log_wake_frame (m m' : MasterSlaveImpl) (call call' : SyncCall) (signalled : bool) :
  Log_wake m call signalled = (m', call') →
  only_master_only m m' ∧ last_offset call' = last_offset call
  ∧ entry call' = entry call
  ∧ (∀ r, pc call' = Returned r → r = true).
Proof.
  unfold Log_wake. destruct signalled; [destruct (negb _); [|destruct (master_only_ m) eqn:E]|];
    intros [= <- <-]; simpl;
    (split; [first [apply only_master_only_refl | by eexists] | naive_solver]).
Qed.

(** ** The invariant holds in every reachable configuration *)

Lemma Init_Ok (e : Environment) (m : MasterSlaveImpl) :
  Init e = Ok m →
  ∃ content, open_sync_log e = Opened content
  ∧ FLAGS_master_slave_role m = env_role e
  ∧ sync_log m = content
  ∧ current_offset_ m = Z.of_nat (length content)
  ∧ 0 ≤ sync_offset_ m ≤ current_offset_ m
  ∧ read_log_pos m = sync_offset_ m
  ∧ master_only_ m = false
  ∧ callbacks_ m = ∅.
Proof.
  unfold Init. intros H.
  set (m0 := constructed (env_role e)) in *.
  assert (H1 : ∀ m1 : MasterSlaveImpl,
    (m1 = m0 ∨ ∃ buf, m1 = set_sync_offset m0 (decode_u32 buf)) →
    match open_sync_log e with
    | OpenFailed _ => Fatal
    | Opened content =>
        let m2 := set_current_offset (set_sync_log m1 content) (Z.of_nat (length content)) in
        if negb (sync_offset_ m2 <=? current_offset_ m2) then Fatal
        else match open_read_log e with
             | Some _ => Fatal
             | None => Ok (set_read_log_pos m2 (sync_offset_ m2))
             end
    end = Ok m → ∃ content, open_sync_log e = Opened content
  ∧ FLAGS_master_slave_role m = env_role e
  ∧ sync_log m = content
  ∧ current_offset_ m = Z.of_nat (length content)
  ∧ 0 ≤ sync_offset_ m ≤ current_offset_ m
  ∧ read_log_pos m = sync_offset_ m
  ∧ master_only_ m = false
  ∧ callbacks_ m = ∅).
  { intros m1 Hm1. destruct (open_sync_log e) as [content|]; [|done]. simpl.
    destruct (Z.leb_spec (sync_offset_ m1) (Z.of_nat (length content))); [|done]. simpl.
    destruct (open_read_log e); [done|]. intros [= <-]. exists content. simpl.
    destruct Hm1 as [->|[buf ->]]; simpl; repeat split; try done; try lia.
    apply decode_u32_range. }
  destruct (open_prog_log e) as [content|errno].
  - destruct (_ =? 4).
    + exact (H1 (set_sync_offset m0 _) ltac:(eauto) H).
    + exact (H1 m0 ltac:(eauto) H).
  - destruct (negb _); [done|]. exact (H1 m0 ltac:(eauto) H).
Qed.

Lemma file_read_app_l (file more : list byte) (pos count : Z) :
  0 ≤ pos → 0 ≤ count → pos + count ≤ Z.of_nat (length file) →
  file_read (file ++ more) pos count = file_read file pos count.
Proof.
  intros Hp Hc Hle. unfold file_read.
  rewrite drop_app, take_app, length_drop.
  replace (Z.to_nat count - (length file - Z.to_nat pos))%nat with 0%nat by lia.
  rewrite take_0. apply app_nil_r.
Qed.

Lemma file_read_at_end (file data : list byte) :
  file_read (file ++ data) (Z.of_nat (length file)) (Z.of_nat (length data)) = data.
Proof.
  pose proof (file_read_app file data []) as H. by rewrite app_nil_r in H.
Qed.

(** A complete record stays what it is when the file grows. *)
Lemma read_record_app (file more : list byte) (pos len : Z) (entry : list byte) (pos' : Z) :
  0 ≤ pos → read_record file pos = Record_ len entry pos' →
  read_record (file ++ more) pos = Record_ len entry pos'.
Proof.
  intros Hp. unfold read_record.
  pose proof (file_read_length file pos 4 ltac:(lia) ltac:(lia)) as H4.
  destruct (_ <? 4) eqn:E1; [done|]. apply Z.ltb_ge in E1.
  pose proof (decode_u32_range (file_read file pos 4)) as Hd.
  pose proof (file_read_length file (pos + Z.of_nat (length (file_read file pos 4)))
                (decode_u32 (file_read file pos 4)) ltac:(lia) ltac:(lia)) as Hl.
  destruct (_ <? decode_u32 _) eqn:E2; [done|]. apply Z.ltb_ge in E2.
  intros [= <- <- <-].
  rewrite (file_read_app_l file more pos 4) by lia.
  apply Z.ltb_ge in E1. rewrite E1.
  rewrite (file_read_app_l file more) by lia.
  apply Z.ltb_ge in E2. rewrite E2. reflexivity.
Qed.

Lemma Inv_initial (e : Environment) (m : MasterSlaveImpl) :
  Init e = Ok m → IsLeader m = true → Inv (initial m).
Proof.
  intros Hi Hl. destruct (Init_Ok _ _ Hi) as (content & _ & _ & Hf & Hc & Hs & Hr & _ & Hcb).
  constructor; simpl; try done; unfold frontier; simpl; try lia.
  - rewrite Hf. lia.
  - rewrite Hf, Hc. lia.
  - intros k cb. rewrite Hcb. by rewrite lookup_empty.
  - intros k cb Hin. by apply elem_of_nil in Hin.
  - constructor.
  - intros k cb b Hin. by apply elem_of_nil in Hin.
  - constructor.
Qed.

Lemma Inv_sync_le_frontier (c : Config) :
  Inv c → sync_offset_ (node c) ≤ frontier c.
Proof.
  intros HI. pose proof (inv_record _ HI) as Hw. unfold frontier.
  destruct (worker c); simpl in Hw; lia.
Qed.

Lemma Inv_callbacks_fresh_key (c : Config) :
  Inv c → callbacks_ (node c) !! current_offset_ (node c) = None.
Proof.
  intros HI. destruct (callbacks_ (node c) !! current_offset_ (node c)) eqn:E; [|done].
  apply (inv_keys _ HI) in E. lia.
Qed.

Lemma worker_record_ok_append (m : MasterSlaveImpl) (w : WorkerPc) (more : list byte) (o : Z) :
  worker_record_ok m w →
  worker_record_ok (set_current_offset (set_sync_log m (sync_log m ++ more)) o) w.
Proof.
  destruct w as [|len entry|len entry]; simpl; [done|..];
    intros (? & ? & ?); repeat split; try done; by apply read_record_app.
Qed.

Lemma Inv_CallLogSync (c : Config) (entry : list byte) (t : Z) (m' : MasterSlaveImpl) (last : Z) :
  Inv c → Log_append (node c) entry = Ok (m', last) →
  Inv (mkConfig m' (worker c) (calls c ++ [mkSyncCall AtCheck entry t last 0])
         (registered c) (invoked c)).
Proof.
  intros HI Ha. pose proof (Inv_callbacks_fresh_key _ HI) as Hfresh.
  destruct HI as [Hl Hs Hw Hf Hr Hz Hk Hc Hret Hreg Hrnd Hi Hnd].
  apply Log_append_Ok in Ha as (_ & -> & ->).
  constructor; simpl; try done.
  - by apply worker_record_ok_append.
  - rewrite length_app. lia.
  - rewrite length_app, Nat2Z.inj_add, frame_length. lia.
  - intros k cb Hkc. apply Hk in Hkc as [??]. split; [lia|done].
  - intros tid call [[_ Hin]|[_ <-]]%lookup_snoc_Some.
    + destruct (Hc _ _ Hin) as (? & ? & ? & ? & ?). split_and!; [done|lia| |done..].
      rewrite file_read_app_l by lia. done.
    + simpl. split_and!; [lia|lia| |done|].
      * rewrite <- Hz, <- frame_length. apply file_read_at_end.
      * intros cb Hin. apply Hreg in Hin. lia.
  - intros tid call r [[_ Hin]|[_ <-]]%lookup_snoc_Some; [by eapply Hret|done].
  - intros k cb Hin. destruct (Hreg _ _ Hin). split; [lia|done].
Qed.

Lemma Inv_CallLogAsync (c : Config) (entry : list byte) (cb : Callback) (m' : MasterSlaveImpl) :
  Inv c → Log_async (node c) entry cb = Ok m' →
  Inv (mkConfig m' (worker c) (calls c)
         (registered c ++ [(current_offset_ (node c), cb)]) (invoked c)).
Proof.
  intros HI Ha. pose proof (Inv_callbacks_fresh_key _ HI) as Hfresh.
  destruct HI as [Hl Hs Hw Hf Hr Hz Hk Hc Hret Hreg Hrnd Hi Hnd].
  apply Log_async_Ok in Ha as (_ & ->).
  unfold std_map_insert. rewrite Hfresh.
  constructor; simpl; try done.
  - by apply (worker_record_ok_append (node c)).
  - rewrite length_app. lia.
  - rewrite length_app, Nat2Z.inj_add, frame_length. lia.
  - intros k cb' [[<- <-]|[_ Hkc]]%lookup_insert_Some.
    + split; [lia|]. apply elem_of_app. right. by apply list_elem_of_singleton.
    + apply Hk in Hkc as [??]. split; [lia|]. apply elem_of_app. by left.
  - intros tid call Hin. destruct (Hc _ _ Hin) as (? & ? & ? & ? & Hnr).
    split_and!; [done|lia| | |].
    + rewrite file_read_app_l by lia. done.
    + rewrite lookup_insert_ne by lia. done.
    + intros cb' [Hin'|[= Heq _]%list_elem_of_singleton]%elem_of_app; [by eapply Hnr|lia].
  - intros k cb' [Hin|[= -> ->]%list_elem_of_singleton]%elem_of_app.
    + destruct (Hreg _ _ Hin) as [? Hor]. split; [lia|].
      rewrite lookup_insert_ne by lia. done.
    + split; [lia|]. left. apply lookup_insert_eq.
  - rewrite fmap_app. apply NoDup_app. split; [done|]. split; [|apply NoDup_singleton].
    intros k [[k' cb'] [-> Hin]]%list_elem_of_fmap [=]%list_elem_of_singleton.
    simpl in *. subst k'. destruct (Hreg _ _ Hin). lia.
  - intros k cb' b Hin. destruct (Hi _ _ _ Hin) as (? & Hr' & ?).
    repeat split; [done|apply elem_of_app; by left|].
    destruct (Hreg _ _ Hr'). rewrite lookup_insert_ne by lia. done.
Qed.

Lemma Inv_step_call (c c' : Config) (tid : nat) (from : SyncPc)
    (f : MasterSlaveImpl → SyncCall → MasterSlaveImpl * SyncCall) :
  (∀ m m' call call', f m call = (m', call') →
     only_master_only m m' ∧ last_offset call' = last_offset call
     ∧ entry call' = entry call
     ∧ (∀ r, pc call' = Returned r → r = true)) →
  Inv c → step_call tid from f c = Some (Ok c') → Inv c'.
Proof.
  intros Hf HI. unfold step_call.
  destruct (calls c !! tid) as [call|] eqn:Hcall; [|done].
  destruct (decide _); [|done].
  destruct (f (node c) call) as [m' call'] eqn:E. intros [= <-].
  apply Hf in E as ([b ->] & Hlast & Hentry & Hret').
  destruct HI as [Hl Hs Hw Hfr Hr Hz Hk Hc Hret Hreg Hrnd Hi Hnd].
  constructor; simpl; try done.
  - intros j call0 [(-> & <- & _)|[_ Hin]]%list_lookup_insert_Some.
    + rewrite Hlast, Hentry. by eapply Hc.
    + by eapply Hc.
  - intros j call0 r [(-> & <- & _)|[_ Hin]]%list_lookup_insert_Some.
    + apply Hret'.
    + by eapply Hret.
Qed.

Lemma Inv_WorkerRead (c : Config) (m' : MasterSlaveImpl) (w' : WorkerPc) :
  Inv c → worker c = WorkerLoop → ReplicateLog_read (node c) = Ok (m', w') →
  Inv (mkConfig m' w' (calls c) (registered c) (invoked c)).
Proof.
  intros HI Hwl. destruct HI as [Hl Hs Hw Hf Hr Hz Hk Hc Hret Hreg Hrnd Hi Hnd].
  unfold frontier in Hf. rewrite Hwl in Hf.
  unfold ReplicateLog_read.
  destruct (negb _).
  { intros [= <- <-]. constructor; simpl; try done. }
  pose proof (read_record_spec (sync_log (node c)) (read_log_pos (node c)) ltac:(lia)) as Hrr.
  destruct (read_record _ _) as [p|p|len entry p] eqn:E; [done| |]; intros [= <- <-].
  - constructor; unfold frontier; simpl; try done; lia.
  - destruct Hrr as (? & ? & -> & ?).
    constructor; unfold frontier; simpl; try done; try lia.
    repeat split; [done|lia|].
    replace (read_log_pos (node c) + 4 + len - (4 + len)) with (read_log_pos (node c)) by lia.
    done.
Qed.

Lemma Inv_WorkerRpc (c : Config) (len : Z) (entry : list byte) (m' : MasterSlaveImpl)
    (w' : WorkerPc) (ev : option (Z * Callback * bool)) :
  Inv c → worker c = WorkerSending len entry →
  ReplicateLog_confirm (node c) len entry = Ok (m', w', ev) →
  Inv (mkConfig m' w' (calls c) (registered c) (invoked c ++ option_list ev)).
Proof.
  intros HI Hws. destruct HI as [Hl Hs Hw Hf Hr Hz Hk Hc Hret Hreg Hrnd Hi Hnd].
  unfold frontier in Hf. rewrite Hws in Hf, Hw. simpl in Hw.
  unfold ReplicateLog_confirm.
  destruct (callbacks_ (node c) !! sync_offset_ (node c)) as [cb|] eqn:Hcb.
  - intros [= <- <- <-]. constructor; unfold frontier; simpl; try done.
    + intros k cb' [_ Hkc]%lookup_delete_Some. by eapply Hk.
    + intros tid call Hin. destruct (Hc _ _ Hin) as (? & ? & ? & ? & ?).
      split_and!; [done..| |done]. apply lookup_delete_None. by right.
    + intros k cb' Hin. destruct (Hreg _ _ Hin) as [? [Hp|Hv]]; (split; [done|]).
      * destruct (decide (k = sync_offset_ (node c))) as [->|Hne].
        -- right. apply elem_of_app. right. apply list_elem_of_singleton. congruence.
        -- left. by rewrite lookup_delete_ne.
      * right. apply elem_of_app. by left.
    + intros k cb' b [Hin|Hin%list_elem_of_singleton]%elem_of_app.
      * destruct (Hi _ _ _ Hin) as (? & ? & ?). repeat split; [done..|].
        apply lookup_delete_None. by right.
      * injection Hin as -> -> ->. repeat split; [by eapply Hk|apply lookup_delete_eq].
    + rewrite fmap_app. apply NoDup_app. split; [done|]. split; [|apply NoDup_singleton].
      intros k [[[k' cb'] b] [-> Hin]]%list_elem_of_fmap [=]%list_elem_of_singleton.
      simpl in *. subst k'. destruct (Hi _ _ _ Hin) as (_ & _ & Hnone). congruence.
  - destruct (negb _); [done|]. intros [= <- <- <-]. simpl. rewrite app_nil_r.
    constructor; unfold frontier; simpl; try done; lia.
Qed.

Lemma Inv_WorkerCallbackReturns (c : Config) (len : Z) (entry : list byte) :
  Inv c → worker c = WorkerInCallback len entry →
  Inv (mkConfig (ReplicateLog_advance (node c) len).1 (ReplicateLog_advance (node c) len).2
         (calls c) (registered c) (invoked c)).
Proof.
  intros HI Hws. destruct HI as [Hl Hs Hw Hf Hr Hz Hk Hc Hret Hreg Hrnd Hi Hnd].
  unfold frontier in Hf. rewrite Hws in Hf, Hw. simpl in Hw.
  constructor; unfold frontier; simpl; try done; lia.
Qed.

Lemma Inv_step (l : Label) (c c' : Config) :
  Inv c → step l c = Some (Ok c') → Inv c'.
Proof.
  intros HI. destruct l as [entry t|tid now|tid now|tid sg|entry cb| |ok|]; simpl.
  - destruct (Log_append (node c) entry) as [[m' last]|] eqn:E; [|done].
    intros [= <-]. by eapply Inv_CallLogSync.
  - apply Inv_step_call; [|done]. intros m m' call call' E.
    apply Log_check_frame in E as (-> & ? & ? & ?). split; [apply only_master_only_refl|done].
  - apply Inv_step_call; [|done]. intros m m' call call'. apply Log_loop_frame.
  - apply Inv_step_call; [|done]. intros m m' call call'. apply Log_wake_frame.
  - destruct (Log_async (node c) entry cb) as [m'|] eqn:E; [|done].
    intros [= <-]. by eapply Inv_CallLogAsync.
  - destruct (worker c) eqn:Hw; [|done..].
    destruct (ReplicateLog_read (node c)) as [[m' w']|] eqn:E; [|done].
    intros [= <-]. by eapply Inv_WorkerRead.
  - destruct (worker c) as [|len entry|] eqn:Hw; [done| |done].
    destruct ok; [|by intros [= <-]].
    destruct (ReplicateLog_confirm (node c) len entry) as [[[m' w'] ev]|] eqn:E; [|done].
    intros [= <-]. by eapply Inv_WorkerRpc.
  - destruct (worker c) as [| |len entry] eqn:Hw; [done..|].
    intros [= <-]. by eapply Inv_WorkerCallbackReturns.
Qed.

Lemma reachable_Inv (c : Config) : reachable c → Inv c.
Proof.
  induction 1 as [e m Hi Hl|c l c' _ IH Hs].
  - by eapply Inv_initial.
  - by eapply Inv_step.
Qed.

(** ** Reading back what was appended *)

Lemma read_record_frame (pre entry rest : list byte) :
  Z.of_nat (length entry) < 2 ^ 32 →
  read_record (pre ++ frame entry ++ rest) (Z.of_nat (length pre))
  = Record_ (Z.of_nat (length entry)) entry
      (Z.of_nat (length pre) + 4 + Z.of_nat (length entry)).
Proof.
  intros Hb. rewrite frame_eq, <- app_assoc.
  set (hdr := encode_u32 (Z.of_nat (length entry))).
  assert (H1 : file_read (pre ++ hdr ++ entry ++ rest) (Z.of_nat (length pre)) 4 = hdr)
    by apply (file_read_app pre hdr (entry ++ rest)).
  assert (H2 : file_read (pre ++ hdr ++ entry ++ rest) (Z.of_nat (length pre) + 4)
                 (Z.of_nat (length entry)) = entry).
  { rewrite (app_assoc pre hdr).
    replace (Z.of_nat (length pre) + 4) with (Z.of_nat (length (pre ++ hdr)))
      by (rewrite length_app; subst hdr; rewrite encode_u32_length; lia).
    apply file_read_app. }
  unfold read_record. rewrite H1.
  change (Z.of_nat (length hdr)) with 4. change (4 <? 4) with false. cbv iota.
  subst hdr. rewrite decode_encode_u32 by lia.
  rewrite H2, Z.ltb_irrefl. reflexivity.
Qed.

Lemma read_record_eof (file : list byte) :
  read_record file (Z.of_nat (length file)) = ShortHeader (Z.of_nat (length file)).
Proof.
  unfold read_record, file_read. rewrite Nat2Z.id, drop_all. simpl.
  by rewrite Z.add_0_r.
Qed.

Lemma read_all_S (n : nat) (file : list byte) (pos : Z) :
  read_all (S n) file pos
  = match read_record file pos with
    | Record_ _ entry pos' => entry :: read_all n file pos'
    | _ => []
    end.
Proof. reflexivity. Qed.

Lemma read_all_frames (entries : list (list byte)) (pre : list byte) :
  Forall (λ p, Z.of_nat (length p) < 2 ^ 32) entries →
  read_all (S (length entries)) (pre ++ concat (frame <$> entries)) (Z.of_nat (length pre))
  = entries.
Proof.
  intros Hb. revert pre. induction Hb as [|p entries Hp _ IH]; intros pre.
  - simpl. by rewrite app_nil_r, read_record_eof.
  - rewrite fmap_cons, concat_cons.
    change (length (p :: entries)) with (S (length entries)).
    rewrite read_all_S, read_record_frame by done. f_equal.
    specialize (IH (pre ++ frame p)).
    rewrite length_app, Nat2Z.inj_add, frame_length, <- app_assoc in IH.
    rewrite <- IH at 3. f_equal. lia.
Qed.

Lemma append_all_leader (m : MasterSlaveImpl) (l : list (list byte * option Callback)) :
  IsLeader m = true →
  ∃ m', append_all m l = Ok m'
    ∧ current_offset_ m' = current_offset_ m + total_size l
    ∧ sync_log m' = sync_log m ++ concat (frame <$> l.*1).
Proof.
  revert m. induction l as [|[p o] l IH]; intros m Hl.
  - exists m. simpl. split_and!; [done|lia|by rewrite app_nil_r].
  - cbn [append_all]. unfold local_append. cbn [fst snd].
    assert (∃ m1, (match o with
                   | None => '(m', _) ← Log_append m p; Ok m'
                   | Some callback => Log_async m p callback
                   end) = Ok m1
              ∧ IsLeader m1 = true
              ∧ current_offset_ m1 = current_offset_ m + (4 + Z.of_nat (length p))
              ∧ sync_log m1 = sync_log m ++ frame p) as (m1 & -> & Hl1 & Hc1 & Hf1).
    { destruct o as [cb|].
      - rewrite Log_async_leader by done. eexists. split; [done|]. simpl.
        split_and!; [done|lia|done].
      - rewrite Log_append_leader by done. eexists. split; [done|]. simpl.
        split_and!; [done|lia|done]. }
    destruct (IH m1 Hl1) as (m' & Ha & Hc & Hf). exists m'.
    split; [exact Ha|]. rewrite Hc, Hc1, Hf, Hf1. simpl.
    split; [lia|by rewrite <- app_assoc].
Qed.

(** ** What a step does *)

Lemma step_call_Ok (tid : nat) (from : SyncPc)
    (f : MasterSlaveImpl → SyncCall → MasterSlaveImpl * SyncCall) (c c' : Config) :
  step_call tid from f c = Some (Ok c') →
  ∃ call, calls c !! tid = Some call ∧ pc call = from
    ∧ c' = mkConfig (f (node c) call).1 (worker c) (<[tid := (f (node c) call).2]> (calls c))
             (registered c) (invoked c).
Proof.
  unfold step_call. destruct (calls c !! tid) as [call|]; [|done].
  destruct (decide _); [|done]. destruct (f (node c) call) eqn:E.
  intros [= <-]. exists call. by rewrite E.
Qed.

(** The steps of the callers of the synchronous [Log] after their append
    leave everything but [master_only_] and the caller as it was. *)
Lemma step_sync_frame (l : Label) (c c' : Config) :
  (∃ tid now, l = SyncCheck tid now ∨ l = SyncLoop tid now)
  ∨ (∃ tid signalled, l = SyncWake tid signalled) →
  step l c = Some (Ok c') →
  only_master_only (node c) (node c') ∧ worker c' = worker c
  ∧ registered c' = registered c ∧ invoked c' = invoked c.
Proof.
  intros [(tid & now & [->| ->])|(tid & sg & ->)]; simpl;
    intros (call & _ & _ & ->)%step_call_Ok; simpl; (split; [|done]).
  - destruct (Log_check _ _ _) eqn:E. apply Log_check_frame in E as (-> & _).
    apply only_master_only_refl.
  - destruct (Log_loop _ _ _) eqn:E. by apply Log_loop_frame in E as (? & _).
  - destruct (Log_wake _ _ _) eqn:E. by apply Log_wake_frame in E as (? & _).
Qed.

Lemma reachable_fresh : reachable fresh.
Proof. by apply (reachable_init fresh_env). Qed.

Lemma reachable_run (ls : list Label) (c c' : Config) :
  reachable c → run ls c = Some (Ok c') → reachable c'.
Proof.
  revert c. induction ls as [|l ls IH]; intros c Hc; simpl.
  - by intros [= <-].
  - destruct (step l c) as [[c1|]|] eqn:E; [|done..].
    apply IH. by eapply reachable_step.
Qed.

Lemma two_appends_run : run two_appends fresh = Some (Ok sending_second).
Proof. vm_compute. reflexivity. Qed.

Lemma reachable_sending_second : reachable sending_second.
Proof. exact (reachable_run _ _ _ reachable_fresh two_appends_run). Qed.

(** ** The read position and [sync_offset_]

    [Init] puts the read position of [read_log_] at [sync_offset_], and the
    worker looks up the callback of the record it has read under
    [sync_offset_].  Every step keeps the two together but one: the drain step
    that meets a short payload and returns at line 187. *)
Lemma read_position_follows (l : Label) (c c' : Config) :
  reachable c → follows c → step l c = Some (Ok c') →
  follows c'
  ∨ (l = WorkerRead
     ∧ ∃ pos', read_record (sync_log (node c)) (read_log_pos (node c)) = ShortPayload pos'
         ∧ sync_offset_ (node c') = sync_offset_ (node c)
         ∧ read_log_pos (node c') = pos'
         ∧ sync_offset_ (node c) + 4 ≤ pos').
Proof.
  intros HI%reachable_Inv. unfold follows, frontier. intros Hf Hs.
  destruct l as [entry t|tid now|tid now|tid sg|entry cb| |ok|].
  - simpl in Hs. destruct (Log_append (node c) entry) as [[m' last]|] eqn:E; [|done].
    injection Hs as <-. apply Log_append_Ok in E as (_ & _ & ->). by left.
  - apply step_sync_frame in Hs as ([b ->] & -> & _); [by left|left; eauto].
  - apply step_sync_frame in Hs as ([b ->] & -> & _); [by left|left; eauto].
  - apply step_sync_frame in Hs as ([b ->] & -> & _); [by left|right; eauto].
  - simpl in Hs. destruct (Log_async (node c) entry cb) as [m'|] eqn:E; [|done].
    injection Hs as <-. apply Log_async_Ok in E as (_ & ->). by left.
  - simpl in Hs. destruct (worker c) eqn:Hw; [|done..].
    unfold ReplicateLog_read in Hs. destruct (negb _).
    { injection Hs as <-. by left. }
    pose proof (inv_sync_nonneg _ HI). pose proof (inv_read_pos _ HI).
    pose proof (read_record_spec (sync_log (node c)) (read_log_pos (node c)) ltac:(lia)) as Hr.
    destruct (read_record _ _) as [p|p|len e p]; [done|..]; injection Hs as <-; simpl.
    + right. split; [done|]. exists p. split_and!; [done..|lia].
    + left. lia.
  - simpl in Hs. destruct (worker c) as [|len e|] eqn:Hw; [done| |done].
    destruct ok; [|injection Hs as <-; left; first [done|by rewrite Hw]].
    unfold ReplicateLog_confirm in Hs. destruct (_ !! _).
    { injection Hs as <-. by left. }
    destruct (negb _); [done|]. injection Hs as <-. by left.
  - simpl in Hs. destruct (worker c) as [| |len e] eqn:Hw; [done..|].
    injection Hs as <-. by left.
Qed.

(** While the two are together, the record the worker holds is the record
    that lies at [sync_offset_] in the file. *)
Lemma record_in_hand_is_at_sync_offset (c : Config) (len : Z) (e : list byte) :
  reachable c → follows c → worker c = WorkerSending len e →
  read_record (sync_log (node c)) (sync_offset_ (node c))
  = Record_ len e (sync_offset_ (node c) + (4 + len)).
Proof.
  intros HI%reachable_Inv. unfold follows, frontier. intros Hf Hw.
  pose proof (inv_record _ HI) as Hr. rewrite Hw in Hf, Hr.
  destruct Hr as (_ & _ & Hr). rewrite Hf in Hr.
  by replace (sync_offset_ (node c) + (4 + len) - (4 + len)) with (sync_offset_ (node c))
    in Hr by lia.
Qed.

(** A log of whole records stays one, the read position keeps following
    [sync_offset_], and the worker finds a whole record whenever
    [sync_offset_ < current_offset_]: the two exits on a short read are not
    taken. *)
Lemma whole_records_read (c : Config) :
  reachable c → follows c → whole_records c → worker c = WorkerLoop →
  sync_offset_ (node c) < current_offset_ (node c) →
  ∃ p entries,
    Forall (λ p, Z.of_nat (length p) < 2 ^ 32) entries
    ∧ read_record (sync_log (node c)) (read_log_pos (node c))
      = Record_ (Z.of_nat (length p)) p (read_log_pos (node c) + 4 + Z.of_nat (length p))
    ∧ drop (Z.to_nat (read_log_pos (node c) + 4 + Z.of_nat (length p))) (sync_log (node c))
      = concat (frame <$> entries).
Proof.
  intros HI%reachable_Inv. unfold follows, frontier. intros Hf (entries & Hb & Hd) Hw Hlt.
  rewrite Hw in Hf. pose proof (inv_sync_nonneg _ HI). pose proof (inv_size _ HI) as Hz.
  destruct entries as [|p entries].
  { apply (f_equal length) in Hd. rewrite length_drop in Hd. simpl in Hd. lia. }
  apply Forall_cons in Hb as [Hp Hb]. exists p, entries. split; [done|].
  rewrite fmap_cons, concat_cons in Hd.
  pose proof (take_drop (Z.to_nat (read_log_pos (node c))) (sync_log (node c))) as Htd.
  rewrite Hd in Htd.
  assert (Hlen : Z.of_nat (length (take (Z.to_nat (read_log_pos (node c))) (sync_log (node c))))
                 = read_log_pos (node c)) by (rewrite length_take; lia).
  remember (take (Z.to_nat (read_log_pos (node c))) (sync_log (node c))) as pre eqn:Hpre.
  clear Hpre Hd. rewrite <- Htd, <- Hlen. split.
  - by apply read_record_frame.
  - rewrite app_assoc.
    replace (Z.to_nat (Z.of_nat (length pre) + 4 + Z.of_nat (length p)))
      with (length (pre ++ frame p)).
    + apply drop_app_length.
    + rewrite length_app. pose proof (frame_length p). lia.
Qed.

Lemma whole_records_step (l : Label) (c c' : Config) :
  reachable c → follows c → whole_records c → small_payload l →
  step l c = Some (Ok c') →
  follows c' ∧ whole_records c'.
Proof.
  intros Hreach Hf Hwr Hsmall Hs.
  pose proof (reachable_Inv _ Hreach) as HI.
  destruct (read_position_follows _ _ _ Hreach Hf Hs) as [Hf'|(-> & pos' & Hshort & _)].
  - split; [done|].
    destruct l as [entry t|tid now|tid now|tid sg|entry cb| |ok|].
    + simpl in Hs. destruct (Log_append (node c) entry) as [[m' last]|] eqn:E; [|done].
      injection Hs as <-. apply Log_append_Ok in E as (_ & _ & ->).
      destruct Hwr as (entries & Hb & Hd). exists (entries ++ [entry]). simpl.
      split; [apply Forall_app; split; [done|by constructor]|].
      pose proof (inv_read_pos _ HI). pose proof (Inv_sync_le_frontier _ HI).
      pose proof (inv_sync_nonneg _ HI). unfold follows in Hf.
      rewrite drop_app_le by lia. rewrite Hd, fmap_app, concat_app. simpl.
      by rewrite app_nil_r.
    + apply step_sync_frame in Hs as ([b Hn] & _); [|left; eauto].
      unfold whole_records. by rewrite Hn.
    + apply step_sync_frame in Hs as ([b Hn] & _); [|left; eauto].
      unfold whole_records. by rewrite Hn.
    + apply step_sync_frame in Hs as ([b Hn] & _); [|right; eauto].
      unfold whole_records. by rewrite Hn.
    + simpl in Hs. destruct (Log_async (node c) entry cb) as [m'|] eqn:E; [|done].
      injection Hs as <-. apply Log_async_Ok in E as (_ & ->).
      destruct Hwr as (entries & Hb & Hd). exists (entries ++ [entry]). simpl.
      split; [apply Forall_app; split; [done|by constructor]|].
      pose proof (inv_read_pos _ HI). pose proof (Inv_sync_le_frontier _ HI).
      pose proof (inv_sync_nonneg _ HI). unfold follows in Hf.
      rewrite drop_app_le by lia. rewrite Hd, fmap_app, concat_app. simpl.
      by rewrite app_nil_r.
    + simpl in Hs. destruct (worker c) eqn:Hw; [|done..].
      unfold ReplicateLog_read in Hs.
      destruct (Z.ltb_spec (sync_offset_ (node c)) (current_offset_ (node c))) as [Hlt|];
        simpl in Hs; [|by injection Hs as <-].
      destruct (whole_records_read c Hreach Hf Hwr Hw Hlt) as (p & entries & Hb & Hr & Hd).
      rewrite Hr in Hs. injection Hs as <-. by exists entries.
    + simpl in Hs. destruct (worker c) as [|len e|]; [done| |done].
      destruct ok; [|by injection Hs as <-].
      unfold ReplicateLog_confirm in Hs. destruct (_ !! _); [by injection Hs as <-|].
      destruct (negb _); [done|]. by injection Hs as <-.
    + simpl in Hs. destruct (worker c); [done..|]. by injection Hs as <-.
  - exfalso. simpl in Hs. destruct (worker c) eqn:Hw; [|done..].
    unfold ReplicateLog_read in Hs.
    destruct (Z.ltb_spec (sync_offset_ (node c)) (current_offset_ (node c))) as [Hlt|].
    + destruct (whole_records_read c Hreach Hf Hwr Hw Hlt) as (p & entries & _ & Hr & _).
      congruence.
    + pose proof (inv_read_pos _ HI). pose proof (inv_size _ HI).
      unfold follows, frontier in Hf. rewrite Hw in Hf.
      assert (read_log_pos (node c) = Z.of_nat (length (sync_log (node c)))) as Heq by lia.
      rewrite Heq, read_record_eof in Hshort. done.
Qed.

(** In a run of a fresh leader whose appends have payloads that fit the
    header, the read position follows [sync_offset_] throughout. *)
Lemma fresh_run_follows (ls : list Label) (c : Config) :
  Forall small_payload ls → run ls fresh = Some (Ok c) →
  follows c ∧ whole_records c.
Proof.
  assert (Hgen : ∀ ls c0 c, reachable c0 → follows c0 → whole_records c0 →
            Forall small_payload ls → run ls c0 = Some (Ok c) → follows c ∧ whole_records c).
  { clear. induction ls as [|l ls IH]; intros c0 c Hr Hf Hw Hsm; simpl.
    - by intros [= <-].
    - apply Forall_cons in Hsm as [Hl Hsm].
      destruct (step l c0) as [[c1|]|] eqn:E; [|done..].
      destruct (whole_records_step _ _ _ Hr Hf Hw Hl E) as [Hf1 Hw1].
      apply IH; [by eapply reachable_step|done..]. }
  intros Hsm Hrun. apply (Hgen ls fresh c); [apply reachable_fresh|done| |done..].
  exists []. by split.
Qed.

(** On a short payload: the offsets stay, the read position does not. *)
Lemma ReplicateLog_read_short_payload (m : MasterSlaveImpl) (pos' : Z) :
  sync_offset_ m < current_offset_ m →
  read_record (sync_log m) (read_log_pos m) = ShortPayload pos' →
  ReplicateLog_read m = Ok (set_read_log_pos m pos', WorkerLoop).
Proof.
  intros Hlt Hr. unfold ReplicateLog_read. rewrite Hr.
  destruct (Z.ltb_spec (sync_offset_ m) (current_offset_ m)); [done|lia].
Qed.

(** ** The counters in the range of [int]

    As long as [sync.log] is smaller than 2^31 bytes no [int] of the code
    wraps, and the steps with the counters stored as [int]s are the steps
    with the sums computed in [Z]. *)

Lemma LogLocal_int_Ok (m m' : MasterSlaveImpl) (entry : list byte) (n : Z) :
  LogLocal_int m entry = Ok (m', n) →
  IsLeader m = true
  ∧ m' = set_sync_log m
           (sync_log m ++ encode_u32 (to_int (Z.of_nat (length entry))) ++ entry)
  ∧ n = to_int (to_int (Z.of_nat (length entry)) + 4).
Proof.
  unfold LogLocal_int, write_log. destruct (IsLeader m); simpl; [|done].
  destruct (0 <=? to_int (Z.of_nat (length entry))); simpl; [|done].
  intros [= <- <-]. split_and!; [done| |done].
  unfold set_sync_log. simpl. by rewrite <- app_assoc.
Qed.

Lemma LogLocal_int_small (m : MasterSlaveImpl) (entry : list byte) :
  Z.of_nat (length entry) + 4 < 2 ^ 31 → LogLocal_int m entry = LogLocal m entry.
Proof.
  change (2 ^ 31) with 2147483648. intros Hb. unfold LogLocal_int, LogLocal, write_log.
  by rewrite !to_int_id by (change (2 ^ 31) with 2147483648; lia).
Qed.

Lemma Log_append_int_small (m : MasterSlaveImpl) (entry : list byte) :
  0 ≤ current_offset_ m →
  current_offset_ m + (Z.of_nat (length entry) + 4) < 2 ^ 31 →
  Log_append_int m entry = Log_append m entry.
Proof.
  change (2 ^ 31) with 2147483648. intros H0 Hb.
  unfold Log_append_int, Log_append.
  rewrite LogLocal_int_small by (change (2 ^ 31) with 2147483648; lia).
  destruct (LogLocal m entry) as [[m1 n]|] eqn:E; [|done].
  assert (Hm1 : current_offset_ m1 = current_offset_ m ∧ n = Z.of_nat (length entry) + 4).
  { destruct (IsLeader m) eqn:Hl.
    - rewrite LogLocal_leader in E by done. by injection E as <- <-.
    - by rewrite LogLocal_follower in E. }
  destruct Hm1 as [Hc ->]. simpl.
  by rewrite to_int_id by (change (2 ^ 31) with 2147483648; lia).
Qed.

Lemma Log_async_int_small (m : MasterSlaveImpl) (entry : list byte) (cb : Callback) :
  0 ≤ current_offset_ m →
  current_offset_ m + (Z.of_nat (length entry) + 4) < 2 ^ 31 →
  Log_async_int m entry cb = Log_async m entry cb.
Proof.
  change (2 ^ 31) with 2147483648. intros H0 Hb.
  unfold Log_async_int, Log_async.
  rewrite LogLocal_int_small by (change (2 ^ 31) with 2147483648; lia).
  destruct (LogLocal m entry) as [[m1 n]|] eqn:E; [|done].
  assert (Hm1 : current_offset_ m1 = current_offset_ m ∧ n = Z.of_nat (length entry) + 4).
  { destruct (IsLeader m) eqn:Hl.
    - rewrite LogLocal_leader in E by done. by injection E as <- <-.
    - by rewrite LogLocal_follower in E. }
  destruct Hm1 as [Hc ->]. simpl.
  by rewrite to_int_id by (change (2 ^ 31) with 2147483648; lia).
Qed.

Lemma Log_async_int_leader (m : MasterSlaveImpl) (entry : list byte) (cb : Callback) :
  IsLeader m = true → Z.of_nat (length entry) + 4 < 2 ^ 31 →
  Log_async_int m entry cb
  = Ok (set_current_offset
          (set_callbacks (set_sync_log m (sync_log m ++ frame entry))
             (std_map_insert (current_offset_ m) cb (callbacks_ m)))
          (to_int (current_offset_ m + (Z.of_nat (length entry) + 4)))).
Proof.
  intros Hl Hb. unfold Log_async_int. by rewrite LogLocal_int_small, LogLocal_leader.
Qed.

Lemma Log_append_int_leader (m : MasterSlaveImpl) (entry : list byte) :
  IsLeader m = true → Z.of_nat (length entry) + 4 < 2 ^ 31 →
  Log_append_int m entry
  = Ok (set_current_offset (set_sync_log m (sync_log m ++ frame entry))
          (to_int (current_offset_ m + (Z.of_nat (length entry) + 4))),
        current_offset_ m).
Proof.
  intros Hl Hb. unfold Log_append_int. by rewrite LogLocal_int_small, LogLocal_leader.
Qed.

Lemma advance_int_small (m : MasterSlaveImpl) (len : Z) :
  0 ≤ sync_offset_ m → 0 ≤ len → sync_offset_ m + (4 + len) < 2 ^ 31 →
  advance_int m len = set_sync_offset m (sync_offset_ m + (4 + len)).
Proof.
  change (2 ^ 31) with 2147483648. intros H0 Hl Hb. unfold advance_int.
  change (2 ^ 32) with 4294967296. rewrite Z.mod_small by lia.
  by rewrite to_int_id by (change (2 ^ 31) with 2147483648; lia).
Qed.

Lemma read_record_pos_ge (file : list byte) (pos : Z) :
  match read_record file pos with
  | ShortHeader pos' | ShortPayload pos' | Record_ _ _ pos' => pos ≤ pos'
  end.
Proof.
  unfold read_record. destruct (_ <? 4); [lia|]. destruct (_ <? _); lia.
Qed.

(** What a step does to the file and to the read position, whatever the
    size of the log. *)
Lemma step_int_log (l : Label) (c c' : Config) :
  step_int l c = Some (Ok c') →
  sync_log (node c) `prefix_of` sync_log (node c')
  ∧ read_log_pos (node c) ≤ read_log_pos (node c')
  ∧ ∀ entry, is_append l entry →
      Z.of_nat (length (sync_log (node c')))
      = Z.of_nat (length (sync_log (node c))) + (Z.of_nat (length entry) + 4).
Proof.
  intros Hs.
  assert (Hno : ∀ entry, ¬ is_append WorkerRead entry) by (intros ? [[? [=]]|[? [=]]]).
  destruct l as [entry t|tid now|tid now|tid sg|entry cb| |ok|].
  - simpl in Hs. destruct (Log_append_int (node c) entry) as [[m' last]|] eqn:E; [|done].
    injection Hs as <-. unfold Log_append_int in E.
    destruct (LogLocal_int (node c) entry) as [[m1 n]|] eqn:E1; [|done].
    injection E as <- <-. apply LogLocal_int_Ok in E1 as (_ & -> & _). simpl.
    split_and!; [by eexists|lia|].
    intros e [[t' [= <- _]]|[cb [=]]].
    rewrite length_app. simpl. lia.
  - change (step_int ?l c) with (step l c) in Hs.
    apply step_sync_frame in Hs as ([b ->] & _); [|left; eauto]. simpl.
    split_and!; [done|lia|]. by intros ? [[? [=]]|[? [=]]].
  - change (step_int ?l c) with (step l c) in Hs.
    apply step_sync_frame in Hs as ([b ->] & _); [|left; eauto]. simpl.
    split_and!; [done|lia|]. by intros ? [[? [=]]|[? [=]]].
  - change (step_int ?l c) with (step l c) in Hs.
    apply step_sync_frame in Hs as ([b ->] & _); [|right; eauto]. simpl.
    split_and!; [done|lia|]. by intros ? [[? [=]]|[? [=]]].
  - simpl in Hs. destruct (Log_async_int (node c) entry cb) as [m'|] eqn:E; [|done].
    injection Hs as <-. unfold Log_async_int in E.
    destruct (LogLocal_int (node c) entry) as [[m1 n]|] eqn:E1; [|done].
    injection E as <-. apply LogLocal_int_Ok in E1 as (_ & -> & _). simpl.
    split_and!; [by eexists|lia|].
    intros e [[t' [=]]|[cb' [= <- _]]].
    rewrite length_app. simpl. lia.
  - simpl in Hs. destruct (worker c); [|done..]. unfold ReplicateLog_read in Hs.
    pose proof (read_record_pos_ge (sync_log (node c)) (read_log_pos (node c))) as Hp.
    destruct (negb _).
    { injection Hs as <-. simpl. split_and!; [done|lia|]. by intros ? [[? [=]]|[? [=]]]. }
    destruct (read_record _ _); [done|..]; injection Hs as <-; simpl;
      (split_and!; [done|lia|]); by intros ? [[? [=]]|[? [=]]].
  - assert (Hlog : sync_log (node c') = sync_log (node c)
                   ∧ read_log_pos (node c') = read_log_pos (node c)).
    { destruct ok; simpl in Hs; (destruct (worker c); [done| |done]).
      - unfold ReplicateLog_confirm_int in Hs. destruct (_ !! _).
        + by injection Hs as <-.
        + destruct (negb _); [done|]. by injection Hs as <-.
      - by injection Hs as <-. }
    destruct Hlog as [-> ->]. split_and!; [done|lia|]. by intros ? [[? [=]]|[? [=]]].
  - simpl in Hs. destruct (worker c); [done..|]. injection Hs as <-. simpl.
    split_and!; [done|lia|]. by intros ? [[? [=]]|[? [=]]].
Qed.

Lemma step_int_small (l : Label) (c : Config) :
  Inv c → Z.of_nat (length (sync_log (node c))) < 2 ^ 31 →
  (∀ entry, is_append l entry →
     Z.of_nat (length (sync_log (node c))) + (Z.of_nat (length entry) + 4) < 2 ^ 31) →
  step_int l c = step l c.
Proof.
  intros HI Hb Ha. pose proof (inv_size _ HI) as Hz.
  pose proof (inv_sync_nonneg _ HI) as H0. pose proof (inv_frontier _ HI) as Hf.
  pose proof (inv_read_pos _ HI) as Hr. pose proof (inv_record _ HI) as Hw.
  unfold frontier in Hf.
  destruct l as [entry t|tid now|tid now|tid sg|entry cb| |ok|]; try done.
  - simpl. rewrite Log_append_int_small; [done|lia|].
    rewrite <- Hz. apply Ha. left. by eexists.
  - simpl. rewrite Log_async_int_small; [done|lia|].
    rewrite <- Hz. apply Ha. right. by eexists.
  - destruct ok; [|done]. simpl. destruct (worker c) as [|len e|]; [done| |done].
    destruct Hw as (-> & _ & _).
    unfold ReplicateLog_confirm_int, ReplicateLog_confirm.
    by rewrite advance_int_small by lia.
  - simpl. destruct (worker c) as [| |len e]; [done..|].
    destruct Hw as (-> & _ & _).
    unfold ReplicateLog_advance_int, ReplicateLog_advance.
    by rewrite advance_int_small by lia.
Qed.

Lemma step_int_ideal (l : Label) (c c' : Config) :
  Inv c → step_int l c = Some (Ok c') →
  Z.of_nat (length (sync_log (node c'))) < 2 ^ 31 →
  step l c = Some (Ok c').
Proof.
  intros HI Hs Hb. destruct (step_int_log _ _ _ Hs) as (Hp%prefix_length & _ & Ha).
  rewrite <- Hs. symmetry. apply step_int_small; [done|lia|].
  intros entry He. rewrite <- (Ha entry He). done.
Qed.

Lemma reachable_int_ideal (c : Config) :
  reachable_int c → Z.of_nat (length (sync_log (node c))) < 2 ^ 31 → reachable c.
Proof.
  induction 1 as [e m Hi Hl _|c l c' _ IH Hs]; intros Hb.
  - by eapply reachable_init.
  - destruct (step_int_log _ _ _ Hs) as (Hp%prefix_length & _).
    assert (Hc : reachable c) by (apply IH; lia).
    eapply reachable_step; [exact Hc|].
    by apply step_int_ideal; [apply reachable_Inv|..].
Qed.

Lemma reachable_int_run (ls : list Label) (c c' : Config) :
  reachable_int c → run_int ls c = Some (Ok c') → reachable_int c'.
Proof.
  revert c. induction ls as [|l ls IH]; intros c Hc; simpl.
  - by intros [= <-].
  - destruct (step_int l c) as [[c1|]|] eqn:E; [|done..].
    apply IH. by eapply reachable_int_step.
Qed.

Lemma run_int_log (ls : list Label) (c c' : Config) :
  run_int ls c = Some (Ok c') →
  sync_log (node c) `prefix_of` sync_log (node c')
  ∧ read_log_pos (node c) ≤ read_log_pos (node c').
Proof.
  revert c. induction ls as [|l ls IH]; intros c; simpl.
  - intros [= <-]. split; [done|lia].
  - destruct (step_int l c) as [[c1|]|] eqn:E; [|done..]. intros Hrun.
    destruct (step_int_log _ _ _ E) as (Hp & Hr & _).
    destruct (IH _ Hrun) as (Hp' & Hr'). split; [by etrans|lia].
Qed.

Lemma run_int_ideal (ls : list Label) (c c' : Config) :
  reachable c → run_int ls c = Some (Ok c') →
  Z.of_nat (length (sync_log (node c'))) < 2 ^ 31 →
  run ls c = Some (Ok c').
Proof.
  revert c. induction ls as [|l ls IH]; intros c Hc; simpl; [done|].
  destruct (step_int l c) as [[c1|]|] eqn:E; [|done..]. intros Hrun Hb.
  destruct (run_int_log _ _ _ Hrun) as (Hp%prefix_length & _).
  assert (E' : step l c = Some (Ok c1))
    by (apply step_int_ideal; [by apply reachable_Inv|done|lia]).
  rewrite E'. apply IH; [by eapply reachable_step|done..].
Qed.

(** With the sums in [Z]: the two counters are in order, and what a step
    changes them by. *)
Lemma offsets_of_reachable (c : Config) :
  reachable c →
  sync_offset_ (node c) ≤ current_offset_ (node c)
  ∧ ∀ l c', step l c = Some (Ok c') →
      (current_offset_ (node c') = current_offset_ (node c)
       ∨ ∃ entry, is_append l entry
           ∧ current_offset_ (node c')
             = current_offset_ (node c) + Z.of_nat (length (frame entry)))
      ∧ (sync_offset_ (node c') = sync_offset_ (node c)
         ∨ ∃ len entry, is_advance l (worker c) len entry
             ∧ read_record (sync_log (node c)) (read_log_pos (node c) - (4 + len))
               = Record_ len entry (read_log_pos (node c))
             ∧ sync_offset_ (node c) < current_offset_ (node c)
             ∧ sync_offset_ (node c')
               = sync_offset_ (node c) + Z.of_nat (length (frame entry))).
Proof.
  intros HI%reachable_Inv.
  pose proof (Inv_sync_le_frontier _ HI) as Hsf.
  pose proof (inv_frontier _ HI) as Hf. pose proof (inv_read_pos _ HI) as Hr.
  pose proof (inv_size _ HI) as Hz. pose proof (inv_record _ HI) as Hw.
  split; [lia|].
  intros l c' Hs.
  destruct l as [entry t|tid now|tid now|tid sg|entry cb| |ok|].
  - simpl in Hs. destruct (Log_append (node c) entry) as [[m' last]|] eqn:E; [|done].
    injection Hs as <-. apply Log_append_Ok in E as (_ & _ & ->). simpl.
    split; [right|by left]. exists entry. split; [left; by eexists|].
    rewrite frame_length. lia.
  - apply step_sync_frame in Hs as ([b ->] & _); [|left; eauto]. split; by left.
  - apply step_sync_frame in Hs as ([b ->] & _); [|left; eauto]. split; by left.
  - apply step_sync_frame in Hs as ([b ->] & _); [|right; eauto]. split; by left.
  - simpl in Hs. destruct (Log_async (node c) entry cb) as [m'|] eqn:E; [|done].
    injection Hs as <-. apply Log_async_Ok in E as (_ & ->). simpl.
    split; [right|by left]. exists entry. split; [right; by eexists|].
    rewrite frame_length. lia.
  - simpl in Hs. destruct (worker c); [|done..].
    unfold ReplicateLog_read in Hs. destruct (negb _).
    { injection Hs as <-. split; by left. }
    destruct (read_record _ _); [done|..]; injection Hs as <-; split; by left.
  - simpl in Hs. destruct (worker c) as [|len entry|] eqn:Ew; [done| |done].
    destruct ok; [|injection Hs as <-; split; by left].
    unfold ReplicateLog_confirm in Hs.
    destruct (callbacks_ (node c) !! sync_offset_ (node c)).
    { injection Hs as <-. split; by left. }
    destruct (negb _); [done|]. injection Hs as <-. simpl. split; [by left|right].
    unfold frontier in Hf. rewrite Ew in Hf. destruct Hw as (Hlen & Hpos & Hrec).
    exists len, entry. split; [left; done|]. split; [done|].
    rewrite frame_length. lia.
  - simpl in Hs. destruct (worker c) as [| |len entry] eqn:Ew; [done..|].
    injection Hs as <-. simpl. split; [by left|right].
    unfold frontier in Hf. rewrite Ew in Hf. destruct Hw as (Hlen & Hpos & Hrec).
    exists len, entry. split; [right; done|]. split; [done|].
    rewrite frame_length. lia.
Qed.


Lemma total_size_nonneg (l : list (list byte * option Callback)) : 0 ≤ total_size l.
Proof. induction l as [|a l IH]; simpl; lia. Qed.

Lemma total_size_bound (l : list (list byte * option Callback)) :
  Forall (λ a, Z.of_nat (length a.1) < total_size l) l.
Proof.
  induction l as [|a l IH]; [done|]. pose proof (total_size_nonneg l).
  apply Forall_cons. split; [simpl; lia|].
  eapply Forall_impl; [exact IH|]. intros b Hb. simpl in *. lia.
Qed.

Lemma append_all_int_small (m : MasterSlaveImpl) (l : list (list byte * option Callback)) :
  IsLeader m = true → 0 ≤ current_offset_ m →
  current_offset_ m + total_size l < 2 ^ 31 →
  append_all_int m l = append_all m l.
Proof.
  revert m. induction l as [|[p o] l IH]; intros m Hl H0 Hb; [done|].
  pose proof (total_size_nonneg l) as Hn.
  assert (Hp : current_offset_ m + (Z.of_nat (length p) + 4) < 2 ^ 31)
    by (simpl in Hb; lia).
  cbn [append_all_int append_all]. unfold local_append_int, local_append. cbn [fst snd].
  destruct o as [cb|].
  - rewrite Log_async_int_small by done. rewrite Log_async_leader by done.
    cbn [mbind result_bind]. apply IH; simpl in *; [done|lia|lia].
  - rewrite Log_append_int_small by done. rewrite Log_append_leader by done.
    cbn [mbind result_bind]. apply IH; simpl in *; [done|lia|lia].
Qed.

Lemma append_twice_int (m : MasterSlaveImpl) (p : list byte) :
  IsLeader m = true → Z.of_nat (length p) + 4 < 2 ^ 31 →
  ∃ m', append_all_int m [(p, None); (p, None)] = Ok m'
    ∧ current_offset_ m'
      = to_int (to_int (current_offset_ m + (Z.of_nat (length p) + 4))
                + (Z.of_nat (length p) + 4))
    ∧ total_size [(p, None); (p, None)] = 2 * (Z.of_nat (length p) + 4).
Proof.
  intros Hl Hb. cbn [append_all_int]. unfold local_append_int. cbn [fst snd].
  rewrite Log_append_int_leader by done. cbn [mbind result_bind].
  rewrite Log_append_int_leader by done. cbn [mbind result_bind].
  eexists. split; [reflexivity|]. split; [reflexivity|]. simpl. lia.
Qed.

Lemma Init_no_prog_log (role : string) (content : list byte) :
  Init (mkEnvironment role (OpenFailed ENOENT) (Opened content) None)
  = Ok (mkMasterSlaveImpl role content 0 (Z.of_nat (length content)) 0 false ∅).
Proof.
  unfold Init. simpl. by destruct (Z.leb_spec 0 (Z.of_nat (length content))); [|lia].
Qed.

Lemma big_log_length : Z.of_nat (length big_log) = 2147483644.
Proof. unfold big_log. rewrite length_replicate. lia. Qed.

Lemma big_payload_length : Z.of_nat (length big_payload) = 1073741820.
Proof. unfold big_payload. rewrite length_replicate. lia. Qed.

#[global] Opaque big_log big_payload.

(** ** The claims *)

(** A conjunction of equations between closed terms, each one computed
    before the next is looked at. *)
Ltac compute_each :=
  repeat (split; [vm_compute; reflexivity|]); vm_compute; reflexivity.

(** C1, as the spec states it, does not hold.  [current_offset_] is an
    [int]: on a leader started on a log of 2147483644 bytes with no
    [prog.log], the append of a record of 10 bytes makes
    [current_offset_ += len] wrap to -2147483642, below [sync_offset_],
    which is 0. *)
Lemma current_offset_wraps_below_sync_offset :
  ∃ m c, Init big_env = Ok m ∧ current_offset_ m = 2147483644 ∧ sync_offset_ m = 0
    ∧ step_int (CallLogAsync ["a"; "b"; "c"; "d"; "e"; "f"]%byte 7%nat) (initial m)
      = Some (Ok c)
    ∧ reachable_int c
    ∧ sync_offset_ (node c) = 0 ∧ current_offset_ (node c) = -2147483642
    ∧ ¬ sync_offset_ (node c) ≤ current_offset_ (node c).
Proof.
  pose proof (Init_no_prog_log "master" big_log) as Hi. fold big_env in Hi.
  rewrite big_log_length in Hi.
  set (m := mkMasterSlaveImpl "master" big_log 0 2147483644 0 false ∅) in *.
  assert (Hr : reachable_int (initial m)).
  { apply (reachable_int_init big_env); [exact Hi|reflexivity|reflexivity]. }
  pose proof (Log_async_int_leader m ["a"; "b"; "c"; "d"; "e"; "f"]%byte 7%nat
                eq_refl eq_refl) as Ha.
  assert (Hs : ∃ c, step_int (CallLogAsync ["a"; "b"; "c"; "d"; "e"; "f"]%byte 7%nat)
                      (initial m) = Some (Ok c)
                 ∧ sync_offset_ (node c) = 0 ∧ current_offset_ (node c) = -2147483642).
  { cbn [step_int initial node]. rewrite Ha. cbn [mbind result_bind].
    eexists. split; [reflexivity|]. split; reflexivity. }
  destruct Hs as (c & Hs & Hsync & Hcur).
  exists m, c. split_and!; [exact Hi|reflexivity|reflexivity|exact Hs| |exact Hsync|exact Hcur|].
  - by eapply reachable_int_step.
  - rewrite Hsync, Hcur. lia.
Qed.

(** C1, amended.  In every configuration that the leader reaches after
    [Init] with a [sync.log] smaller than 2^31 bytes, under any interleaving
    of synchronous appends, asynchronous appends and steps of the replication
    worker, [sync_offset_ <= current_offset_].  As long as the log stays
    below that size, a step changes [current_offset_] only if it is the
    locked append of one of the two [Log], and then by the size of the record
    it wrote; it changes [sync_offset_] only if it is the worker's
    [sync_offset_ += 4 + len], and then [sync_offset_ < current_offset_] held
    and the amount is the on-disk size of the one record the worker had read
    from the file. *)
Theorem sync_offset_le_current_offset (c : Config) :
  reachable_int c → Z.of_nat (length (sync_log (node c))) < 2 ^ 31 →
  sync_offset_ (node c) ≤ current_offset_ (node c)
  ∧ ∀ l c', step_int l c = Some (Ok c') →
      Z.of_nat (length (sync_log (node c'))) < 2 ^ 31 →
      (current_offset_ (node c') = current_offset_ (node c)
       ∨ ∃ entry, is_append l entry
           ∧ current_offset_ (node c')
             = current_offset_ (node c) + Z.of_nat (length (frame entry)))
      ∧ (sync_offset_ (node c') = sync_offset_ (node c)
         ∨ ∃ len entry, is_advance l (worker c) len entry
             ∧ read_record (sync_log (node c)) (read_log_pos (node c) - (4 + len))
               = Record_ len entry (read_log_pos (node c))
             ∧ sync_offset_ (node c) < current_offset_ (node c)
             ∧ sync_offset_ (node c')
               = sync_offset_ (node c) + Z.of_nat (length (frame entry))).
Proof.
  intros Hr Hb. pose proof (reachable_int_ideal _ Hr Hb) as Hc.
  destruct (offsets_of_reachable _ Hc) as [Hle Hstep]. split; [done|].
  intros l c' Hs Hb'. apply Hstep.
  by apply step_int_ideal; [apply reachable_Inv|..].
Qed.

Lemma sync_offset_le_current_offset_witness :
  reachable_int sending_second
  ∧ sync_offset_ (node sending_second) ≤ current_offset_ (node sending_second).
Proof.
  assert (H : reachable_int sending_second).
  { apply (reachable_int_run two_appends fresh).
    - apply (reachable_int_init fresh_env); reflexivity.
    - vm_compute. reflexivity. }
  split; [exact H|].
  apply (sync_offset_le_current_offset sending_second H). vm_compute. reflexivity.
Defined.

(** C2.  The code at the input where the claim fails.  [Init] finds a
    [sync.log] whose last record is torn and the worker's first drain step
    returns at line 187 with the read position at 6 and [sync_offset_] at 0
    (the defect of C4).  An asynchronous append of "x" then has its record at
    offset 6 and its callback registered under 6.  The worker reads that
    record and gets it confirmed, but looks up under [sync_offset_], which is
    0: the callback under 6 is not invoked, [sync_offset_] moves to 5, and the
    next drain step meets the end of the file and ends the process, so that
    the callback is never invoked. *)
Lemma async_record_confirmed_callback_not_invoked :
  ∃ m c1 c2 c3, Init torn_env = Ok m
    ∧ run [WorkerRead; CallLogAsync ["x"%byte] 9%nat] (initial m) = Some (Ok c1)
    ∧ sync_offset_ (node c1) = 0 ∧ read_log_pos (node c1) = 6
    ∧ registered c1 = [(6, 9%nat)] ∧ callbacks_ (node c1) !! 6 = Some 9%nat
    ∧ read_record (sync_log (node c1)) 6 = Record_ 1 ["x"%byte] 11
    ∧ step WorkerRead c1 = Some (Ok c2)
    ∧ worker c2 = WorkerSending 1 ["x"%byte]
    ∧ step (WorkerRpc true) c2 = Some (Ok c3)
    ∧ worker c3 = WorkerLoop ∧ sync_offset_ (node c3) = 5
    ∧ invoked c3 = [] ∧ callbacks_ (node c3) !! 6 = Some 9%nat
    ∧ step WorkerRead c3 = Some Fatal.
Proof. do 4 eexists. compute_each. Qed.

(** C3.  The synchronous [Log] returns [true] on each of its return paths.
    Under every interleaving, a call that has returned has returned [true];
    and a call run from its first line, for any payload, any timeout and any
    readings of the clock and results of [TimeWait], does return, with
    [true]. *)
Theorem Log_always_returns_true (c : Config) :
  reachable c →
  (∀ tid call r, calls c !! tid = Some call → pc call = Returned r → r = true)
  ∧ (∀ entry timeout_ms now turns, ∃ m' call',
       Log (node c) entry timeout_ms now turns = Ok (m', call')
       ∧ pc call' = Returned true).
Proof.
  intros HI%reachable_Inv. split; [apply HI|].
  intros entry t now turns. unfold Log.
  rewrite Log_append_leader by apply HI. simpl.
  destruct (Log_check _ _ now) as [m2 c2] eqn:E2.
  assert (Hpc : pc c2 = AtLoop ∨ pc c2 = Returned true).
  { unfold Log_check in E2. destruct (_ && _); injection E2 as <- <-; simpl; eauto. }
  destruct Hpc as [-> | Hr]; [|rewrite Hr; eauto].
  clear E2. revert m2 c2. induction turns as [|[now' sg] turns IH]; intros m2 c2; simpl.
  - unfold Log_loop. rewrite Z.ltb_irrefl, andb_false_r. simpl. eauto.
  - unfold Log_loop at 1. destruct (_ && _); simpl; [|eauto].
    unfold Log_wake. destruct sg; simpl; [|eauto].
    destruct (negb _); simpl; [apply IH|eauto].
Qed.

Lemma Log_always_returns_true_witness :
  reachable fresh
  ∧ ∃ m' call', Log (node fresh) ["a"%byte] 100 0 [(10, true); (20, false)] = Ok (m', call')
      ∧ pc call' = Returned true.
Proof.
  assert (H : reachable fresh) by (apply (reachable_init fresh_env); reflexivity).
  split; [exact H|]. apply (Log_always_returns_true fresh H).
Defined.

(** C4.  The code at the input where the claim fails.  [Init] finds a
    [sync.log] whose last record is torn.  The drain step reads the header,
    then gets 2 of the 5 bytes of payload and returns at line 187:
    [sync_offset_] is still 0, but the read position of [read_log_] has moved
    from 0 to 6, past the header and the partial payload, and the next drain
    step starts reading there. *)
Lemma ReplicateLog_short_read_moves_read_position :
  ∃ m m', Init torn_env = Ok m
    ∧ read_log_pos m = 0 ∧ sync_offset_ m = 0 ∧ current_offset_ m = 6
    ∧ read_record (sync_log m) (read_log_pos m) = ShortPayload 6
    ∧ step WorkerRead (initial m) = Some (Ok (mkConfig m' WorkerLoop [] [] []))
    ∧ sync_offset_ m' = 0 ∧ current_offset_ m' = 6
    ∧ read_log_pos m' = 6.
Proof. do 2 eexists. compute_each. Qed.

(** What follows from it.  An asynchronous append of "x" made after the
    short read has its callback registered under 6.  The worker reads that
    record at position 6 and gets it confirmed, but looks up under
    [sync_offset_], still 0: the callback is not invoked, [sync_offset_] moves
    to 5, in the middle of the file, and the next drain step meets the end of
    the file and ends the process. *)
Lemma short_read_then_append :
  ∃ m c, Init torn_env = Ok m
    ∧ run [WorkerRead; CallLogAsync ["x"%byte] 9%nat; WorkerRead; WorkerRpc true] (initial m)
      = Some (Ok c)
    ∧ sync_offset_ (node c) = 5 ∧ read_log_pos (node c) = 11
    ∧ callbacks_ (node c) !! 6 = Some 9%nat ∧ invoked c = []
    ∧ step WorkerRead c = Some Fatal.
Proof. do 2 eexists. compute_each. Qed.

(** C5.  The code at the input where the claim fails.  A fresh leader in
    normal mode; the first synchronous append is replicated before its caller
    evaluates the loop condition of line 86.  The caller finds
    [sync_offset_ == current_offset_], skips the loop and falls into lines
    103-106: [master_only_] becomes true although nothing is left to
    replicate and the deadline is far from reached. *)
Lemma Log_enters_master_only_when_caught_up :
  master_only_ (node fresh) = false
  ∧ ∃ c call, run caught_up_early fresh = Some (Ok c)
      ∧ reachable c
      ∧ calls c = [call] ∧ pc call = Returned true
      ∧ sync_offset_ (node c) = current_offset_ (node c)
      ∧ 1 < stop_point call
      ∧ master_only_ (node c) = true.
Proof.
  split; [reflexivity|]. do 2 eexists. split; [vm_compute; reflexivity|].
  split; [|vm_compute; split_and!; reflexivity].
  apply (reachable_run caught_up_early fresh); [apply reachable_fresh|].
  vm_compute. reflexivity.
Qed.

(** C6.  The code at the input where the claim fails.  After the short
    read of C4 ([sync_offset_] at 0, read position at 6), a synchronous append
    of "x" has its record at offset 6, which is not zero, and no callback is
    registered for it.  The worker reads that record and gets it confirmed,
    but its lookup is made under [sync_offset_], which is 0 and not the
    offset of the record: it misses, and since [sync_offset_] is 0 the step
    does not reach the [assert(0)] of line 214; [sync_offset_] moves to 5. *)
Lemma sync_record_confirmed_without_assert :
  ∃ m c1 call c2 c3, Init torn_env = Ok m
    ∧ run [WorkerRead; CallLogSync ["x"%byte] 1000] (initial m) = Some (Ok c1)
    ∧ calls c1 = [call] ∧ entry call = ["x"%byte] ∧ last_offset call = 6
    ∧ read_record (sync_log (node c1)) 6 = Record_ 1 ["x"%byte] 11
    ∧ registered c1 = [] ∧ callbacks_ (node c1) !! 6 = None
    ∧ step WorkerRead c1 = Some (Ok c2)
    ∧ worker c2 = WorkerSending 1 ["x"%byte] ∧ sync_offset_ (node c2) = 0
    ∧ step (WorkerRpc true) c2 = Some (Ok c3)
    ∧ worker c3 = WorkerLoop ∧ sync_offset_ (node c3) = 5.
Proof. do 5 eexists. compute_each. Qed.

(** C7, as the spec states it, does not hold.  The test of line 79 is made
    after [mu_] has been released.  On a leader in master-only mode with
    [sync_offset_] at 0 and [current_offset_] at 5, a synchronous append of
    "b" is issued; the worker, which had the first record in hand, gets it
    confirmed and moves [sync_offset_] to 5 before the caller reaches line 79.
    The test is then false, the loop condition true, and the call enters
    [TimeWait]. *)
Lemma Log_master_only_enters_wait :
  ∃ c0 c call, run [CallLogSync ["a"%byte] 0; SyncCheck 0%nat 0; SyncLoop 0%nat 0; WorkerRead]
                 fresh = Some (Ok c0)
    ∧ master_only_ (node c0) = true
    ∧ sync_offset_ (node c0) = 0 ∧ current_offset_ (node c0) = 5
    ∧ run [CallLogSync ["b"%byte] 1000; WorkerRpc true; SyncCheck 1%nat 0; SyncLoop 1%nat 1] c0
      = Some (Ok c)
    ∧ calls c !! 1%nat = Some call
    ∧ entry call = ["b"%byte] ∧ last_offset call = 5
    ∧ master_only_ (node c) = true
    ∧ pc call = InWait.
Proof. do 3 eexists. compute_each. Qed.

(** C7, amended.  A synchronous append for which, at the test of line 79
    (made after the locked append, with [mu_] released), [master_only_] is
    true and [sync_offset_] is below the offset the append occupies (the value
    of [current_offset_] before the increment) has written its record, and
    the test sends it to the [return true] of line 81 without entering the
    wait, in every configuration and whatever the clock.  That is the case of
    every call issued under this condition that reaches line 79 before the
    worker has moved [sync_offset_] up to that offset; in particular of a
    call that runs alone. *)
Theorem Log_master_only_returns_at_once (c : Config) :
  reachable c → master_only_ (node c) = true →
  (∀ tid call now, calls c !! tid = Some call → pc call = AtCheck →
     sync_offset_ (node c) < last_offset call →
     file_read (sync_log (node c)) (last_offset call)
       (Z.of_nat (length (frame (entry call)))) = frame (entry call)
     ∧ step (SyncCheck tid now) c
       = Some (Ok (mkConfig (node c) (worker c)
                     (<[tid := at_pc call (Returned true)]> (calls c))
                     (registered c) (invoked c))))
  ∧ (∀ entry timeout_ms now turns, sync_offset_ (node c) < current_offset_ (node c) →
     ∃ m1, Log_append (node c) entry = Ok (m1, current_offset_ (node c))
       ∧ sync_log m1 = sync_log (node c) ++ frame entry
       ∧ Log (node c) entry timeout_ms now turns
         = Ok (m1, mkSyncCall (Returned true) entry timeout_ms (current_offset_ (node c)) 0)).
Proof.
  intros HI%reachable_Inv Hm. split.
  - intros tid call now Hcall Hpc Hlt.
    destruct (inv_calls _ HI _ _ Hcall) as (_ & _ & Hfile & _).
    split; [by rewrite frame_length|].
    cbn [step]. unfold step_call. rewrite Hcall.
    destruct (decide (pc call = AtCheck)); [|done].
    unfold Log_check. rewrite Hm.
    by destruct (Z.ltb_spec (sync_offset_ (node c)) (last_offset call)); [|lia].
  - intros entry t now turns Hlt. eexists. split_and!.
    + apply Log_append_leader, HI.
    + done.
    + unfold Log. rewrite Log_append_leader by apply HI. simpl.
      unfold Log_check. simpl. rewrite Hm.
      by destruct (Z.ltb_spec (sync_offset_ (node c)) (current_offset_ (node c))); [|lia].
Qed.

Lemma Log_master_only_returns_at_once_witness :
  ∃ c call, run [CallLogSync ["a"%byte] 0; SyncCheck 0%nat 0; SyncLoop 0%nat 0;
                 CallLogSync ["b"%byte] 1000] fresh = Some (Ok c)
    ∧ calls c !! 1%nat = Some call
    ∧ step (SyncCheck 1%nat 7) c
      = Some (Ok (mkConfig (node c) (worker c)
                    (<[1%nat := at_pc call (Returned true)]> (calls c))
                    (registered c) (invoked c))).
Proof.
  assert (H : ∃ c call, run [CallLogSync ["a"%byte] 0; SyncCheck 0%nat 0; SyncLoop 0%nat 0;
                             CallLogSync ["b"%byte] 1000] fresh = Some (Ok c)
                ∧ calls c !! 1%nat = Some call ∧ pc call = AtCheck
                ∧ master_only_ (node c) = true
                ∧ sync_offset_ (node c) < last_offset call).
  { do 2 eexists. vm_compute. split_and!; reflexivity. }
  destruct H as (c & call & Hrun & Hcall & Hpc & Hm & Hlt).
  exists c, call. split; [exact Hrun|]. split; [exact Hcall|].
  exact (proj2 (proj1 (Log_master_only_returns_at_once c
                         (reachable_run _ _ _ reachable_fresh Hrun) Hm)
                  1%nat call 7 Hcall Hpc Hlt)).
Defined.

(** C8, as the spec states it, does not hold.  On a leader started with an
    empty log, two appends of payloads of 2^30 - 4 bytes make records of 2^31
    bytes in all, and [current_offset_], an [int], is then -2^31. *)
Lemma current_offset_is_not_the_sum :
  ∃ m, append_all_int (node fresh) [(big_payload, None); (big_payload, None)] = Ok m
    ∧ total_size [(big_payload, None); (big_payload, None)] = 2147483648
    ∧ current_offset_ m = -2147483648
    ∧ current_offset_ m ≠ total_size [(big_payload, None); (big_payload, None)].
Proof.
  assert (Hb : Z.of_nat (length big_payload) + 4 < 2 ^ 31)
    by (rewrite big_payload_length; reflexivity).
  destruct (append_twice_int (node fresh) big_payload eq_refl Hb) as (m & Ha & Hc & Ht).
  rewrite big_payload_length in Hc, Ht.
  exists m. split_and!; [exact Ha|exact Ht|exact Hc|].
  rewrite Ht. intros Hc'. rewrite Hc' in Hc. discriminate Hc.
Qed.

(** C8, amended.  Starting from an empty log, after any sequence of local
    appends (through either overload of [Log]) whose records take less than
    2^31 bytes in all, [current_offset_] is the sum of the sizes [4 + length]
    of the records, and the file is the records in append order, each a
    4-byte header followed by its payload; reading it from offset 0 with the
    reads of [ReplicateLog] gives back the payloads in order, and then the end
    of the file. *)
Theorem local_appends_then_read (e : Environment) (m0 : MasterSlaveImpl)
    (l : list (list byte * option Callback)) :
  Init e = Ok m0 → IsLeader m0 = true → open_sync_log e = Opened [] →
  total_size l < 2 ^ 31 →
  ∃ m, append_all_int m0 l = Ok m
    ∧ current_offset_ m = total_size l
    ∧ sync_log m = concat ((λ p, encode_u32 (Z.of_nat (length p)) ++ p) <$> l.*1)
    ∧ read_all (S (length l)) (sync_log m) 0 = l.*1.
Proof.
  intros Hi Hl He Ht.
  destruct (Init_Ok _ _ Hi) as (content & He' & _ & Hf & Hc & _).
  rewrite He in He'. injection He' as <-. simpl in Hc.
  destruct (append_all_leader m0 l Hl) as (m & Ha & Hcur & Hlog).
  rewrite Hf in Hlog. rewrite Hc in Hcur. simpl in Hlog, Hcur.
  exists m. rewrite append_all_int_small by (done || lia).
  split_and!; [done..|].
  rewrite Hlog.
  assert (Hb : Forall (λ p, Z.of_nat (length p) < 2 ^ 32) l.*1).
  { apply Forall_fmap. eapply Forall_impl; [by apply total_size_bound|].
    intros a Ha'. simpl in *. change (2 ^ 32) with 4294967296.
    change (2 ^ 31) with 2147483648 in Ht. lia. }
  pose proof (read_all_frames l.*1 [] Hb) as H.
  simpl in H. by rewrite length_fmap in H.
Qed.

Lemma local_appends_then_read_witness :
  ∃ m, append_all_int (node fresh) [(["a"%byte], Some 7%nat); (["b"; "c"]%byte, None)] = Ok m
    ∧ current_offset_ m = 11
    ∧ read_all 3 (sync_log m) 0 = [["a"%byte]; ["b"; "c"]%byte].
Proof.
  destruct (local_appends_then_read fresh_env (node fresh)
              [(["a"%byte], Some 7%nat); (["b"; "c"]%byte, None)])
    as (m & Ha & Hc & _ & Hr); [reflexivity..|].
  exists m. split; [exact Ha|]. split; [exact Hc|exact Hr].
Defined.

(** C9, as the spec states it, does not hold: when [open] fails on
    [prog.log] because the file does not exist, [Init] goes on. *)
Lemma Init_missing_prog_log_is_not_fatal :
  ¬ (∀ e errno, open_prog_log e = OpenFailed errno → Init e = Fatal).
Proof. intros H. specialize (H fresh_env ENOENT eq_refl). vm_compute in H. discriminate H. Qed.

(** C9, amended.  At startup, a failure to open [prog.log] with an [errno]
    other than [ENOENT] is fatal; when the file does not exist ([ENOENT]),
    [Init] goes on as it does with an empty [prog.log], [sync_offset_]
    staying 0. *)
Theorem Init_prog_log_open_failure (e : Environment) (errno : Z) :
  open_prog_log e = OpenFailed errno →
  (errno ≠ ENOENT → Init e = Fatal)
  ∧ (errno = ENOENT →
     Init e = Init (mkEnvironment (env_role e) (Opened []) (open_sync_log e) (open_read_log e))).
Proof.
  intros He. unfold Init. rewrite He. simpl. split.
  - intros Hne. destruct (Z.eqb_spec errno ENOENT); done.
  - intros ->. done.
Qed.

Lemma Init_prog_log_open_failure_witness :
  Init (mkEnvironment "master" (OpenFailed 13) (Opened []) None) = Fatal.
Proof.
  apply (Init_prog_log_open_failure
           (mkEnvironment "master" (OpenFailed 13) (Opened []) None) 13 eq_refl).
  unfold ENOENT. lia.
Defined.

(** C10.  In a drain step, once the record has been replicated: if the
    lookup in [callbacks_] under [sync_offset_] (not yet advanced) finds
    nothing and the offset is not zero, the step ends in the fatal
    [assert(0)]; if the offset is zero the missing entry is let pass,
    [sync_offset_] advances by [4 + len] and the worker is back at the loop
    condition. *)
Theorem ReplicateLog_callback_missing (c : Config) (len : Z) (e : list byte) :
  worker c = WorkerSending len e →
  callbacks_ (node c) !! sync_offset_ (node c) = None →
  (sync_offset_ (node c) ≠ 0 → step (WorkerRpc true) c = Some Fatal)
  ∧ (sync_offset_ (node c) = 0 →
     step (WorkerRpc true) c
     = Some (Ok (mkConfig (set_sync_offset (node c) (0 + (4 + len))) WorkerLoop
                   (calls c) (registered c) (invoked c)))).
Proof.
  intros Hw Hn. simpl. rewrite Hw. unfold ReplicateLog_confirm. rewrite Hn.
  split; intros H.
  - destruct (Z.eqb_spec (sync_offset_ (node c)) 0); done.
  - rewrite H. simpl. by rewrite app_nil_r.
Qed.

Lemma ReplicateLog_callback_missing_witness :
  step (WorkerRpc true) sending_second = Some Fatal.
Proof.
  apply (ReplicateLog_callback_missing sending_second 2 ["b"; "c"]%byte eq_refl eq_refl).
  simpl. lia.
Defined.

(** * Further properties of the code *)

(** ** Startup and the progress file *)


(** X2.  [Init] takes from [prog.log] its first 4 bytes and nothing else: a
    file with more bytes is read as its first 4, and a file with fewer than 4
    is ignored, as if there were none. *)
Theorem Init_reads_four_bytes (e : Environment) (content : list byte) :
  open_prog_log e = Opened content →
  Init e = Init (mkEnvironment (env_role e) (Opened (take 4 content))
                   (open_sync_log e) (open_read_log e))
  ∧ (Z.of_nat (length content) < 4 →
     Init e = Init (mkEnvironment (env_role e) (OpenFailed ENOENT)
                      (open_sync_log e) (open_read_log e))).
Proof.
  intros He. unfold Init. rewrite He. simpl.
  assert (Hr : file_read (take 4 content) 0 4 = file_read content 0 4).
  { unfold file_read. change (Z.to_nat 0) with 0%nat. change (Z.to_nat 4) with 4%nat.
    by rewrite !drop_0, take_take. }
  split; [by rewrite Hr|].
  intros Hlt. pose proof (file_read_length content 0 4 ltac:(lia) ltac:(lia)) as Hl.
  destruct (Z.eqb_spec (Z.of_nat (length (file_read content 0 4))) 4); [lia|done].
Qed.

Lemma Init_reads_four_bytes_witness :
  Init (mkEnvironment "master" (Opened ["005"; "000"]%byte) (Opened torn_log) None)
  = Init (mkEnvironment "master" (OpenFailed ENOENT) (Opened torn_log) None).
Proof.
  apply (Init_reads_four_bytes
           (mkEnvironment "master" (Opened ["005"; "000"]%byte) (Opened torn_log) None)
           ["005"; "000"]%byte eq_refl).
  simpl. lia.
Defined.

(** X3.  A turn of [LogProgress] replaces [prog.log] as a whole or leaves it
    alone: wherever the turn stops, whatever [write] returns and whether or
    not [rename] succeeds, [prog.log] afterwards is the file it was, or a
    file whose first 4 bytes are those of [sync_offset_]; and [Init]
    recovers from such a file the offset that was written. *)
Theorem LogProgress_replaces_whole (m : MasterSlaveImpl) (open_errno : option Z) (ret : Z)
    (rename_ok : bool) (upto : nat) (fs fs' : ProgressFiles) :
  LogProgress_turn m open_errno ret rename_ok upto fs = Ok fs' →
  prog_log fs' = prog_log fs
  ∨ (∃ rest, prog_log fs' = Some (encode_u32 (sync_offset_ m) ++ rest))
    ∧ (0 ≤ sync_offset_ m < 2 ^ 32 →
       recovered_offset (open_of (prog_log fs')) = sync_offset_ m).
Proof.
  unfold LogProgress_turn.
  destruct upto as [|[|[|upto]]]; [by intros [= <-]; left|..];
    (destruct open_errno; [done|]); try (by intros [= <-]; left).
  destruct (Z.eqb_spec ret 4) as [->|]; simpl; [|by intros [= <-]; left].
  destruct rename_ok; simpl; [|by intros [= <-]; left].
  intros [= <-]. right. simpl. unfold overwrite.
  change (take (Z.to_nat 4) (encode_u32 (sync_offset_ m))) with (encode_u32 (sync_offset_ m)).
  split; [by eexists|].
  intros Hr. exact (decode_encode_u32 _ Hr).
Qed.

Lemma LogProgress_replaces_whole_witness :
  recovered_offset
    (open_of (Some (encode_u32 5 ++ drop 4 ["001"; "002"; "003"; "004"; "005"; "006"]%byte)))
  = 5.
Proof.
  destruct (LogProgress_replaces_whole (node sending_second) None 4 true 3
              (mkProgressFiles (Some ["001"; "002"; "003"; "004"; "005"; "006"]%byte) None)
              _ eq_refl) as [H|[_ H]]; [discriminate H|].
  apply H. simpl. lia.
Defined.

(** ** Along a run *)

Lemma step_node_step (l : Label) (c c' : Config) :
  step l c = Some (Ok c') → node_step c (node c').
Proof.
  assert (Hid : node_step c (node c)).
  { pose proof (node_flag c (master_only_ (node c))) as H.
    by replace (set_master_only (node c) (master_only_ (node c))) with (node c) in H
      by (by destruct (node c)). }
  intros Hs. destruct l as [entry t|tid now|tid now|tid sg|entry cb| |ok|].
  - simpl in Hs. destruct (Log_append (node c) entry) as [[m' last]|] eqn:E; [|done].
    injection Hs as <-. apply Log_append_Ok in E as (_ & _ & ->). apply node_append.
  - apply step_sync_frame in Hs as ([b ->] & _); [apply node_flag|left; eauto].
  - apply step_sync_frame in Hs as ([b ->] & _); [apply node_flag|left; eauto].
  - apply step_sync_frame in Hs as ([b ->] & _); [apply node_flag|right; eauto].
  - simpl in Hs. destruct (Log_async (node c) entry cb) as [m'|] eqn:E; [|done].
    injection Hs as <-. apply Log_async_Ok in E as (_ & ->). apply node_async.
  - simpl in Hs. destruct (worker c) eqn:Hw; [|done..].
    unfold ReplicateLog_read in Hs. destruct (negb _); [by injection Hs as <-|].
    destruct (read_record _ _) as [p|p|len e p] eqn:Er; [done|..]; injection Hs as <-;
      simpl; apply node_read; eauto.
  - simpl in Hs. destruct (worker c) as [|len e|] eqn:Hw; [done| |done].
    destruct ok; [|by injection Hs as <-].
    unfold ReplicateLog_confirm in Hs.
    destruct (callbacks_ (node c) !! sync_offset_ (node c)) as [cb|] eqn:Hcb.
    + injection Hs as <-. simpl. by eapply node_erase.
    + destruct (negb _); [done|]. injection Hs as <-. simpl. eapply node_advance. eauto.
  - simpl in Hs. destruct (worker c) as [| |len e] eqn:Hw; [done..|].
    injection Hs as <-. simpl. eapply node_advance. eauto.
Qed.

Lemma node_step_grows (c : Config) (m' : MasterSlaveImpl) :
  Inv c → node_step c m' →
  sync_log (node c) `prefix_of` sync_log m'
  ∧ current_offset_ (node c) ≤ current_offset_ m'
  ∧ sync_offset_ (node c) ≤ sync_offset_ m'
  ∧ read_log_pos (node c) ≤ read_log_pos m'
  ∧ FLAGS_master_slave_role m' = FLAGS_master_slave_role (node c).
Proof.
  intros HI Hn. pose proof (inv_record _ HI) as Hr.
  pose proof (inv_sync_nonneg _ HI). pose proof (inv_frontier _ HI) as Hf.
  pose proof (inv_read_pos _ HI).
  destruct Hn as [b|entry|entry cb|pos' Hw Hread|len entry cb Hw Hcb|len entry Hw]; simpl;
    split_and!; try done; try lia; try (by apply prefix_app_r).
  - unfold frontier in Hf. rewrite Hw in Hf.
    pose proof (read_record_spec (sync_log (node c)) (read_log_pos (node c)) ltac:(lia)) as Hs.
    destruct Hread as [(len & e & Hread)|Hread]; rewrite Hread in Hs; lia.
  - destruct Hw as [Hw|Hw]; rewrite Hw in Hr; simpl in Hr; lia.
Qed.

Lemma run_grows (ls : list Label) (c c' : Config) :
  reachable c → run ls c = Some (Ok c') →
  sync_log (node c) `prefix_of` sync_log (node c')
  ∧ current_offset_ (node c) ≤ current_offset_ (node c')
  ∧ sync_offset_ (node c) ≤ sync_offset_ (node c')
  ∧ read_log_pos (node c) ≤ read_log_pos (node c')
  ∧ FLAGS_master_slave_role (node c') = FLAGS_master_slave_role (node c).
Proof.
  revert c. induction ls as [|l ls IH]; intros c Hr; simpl.
  - intros [= <-]. split_and!; done.
  - destruct (step l c) as [[c1|]|] eqn:E; [|done..]. intros Hrun.
    destruct (node_step_grows c (node c1) (reachable_Inv _ Hr) (step_node_step _ _ _ E))
      as (Hp & ? & ? & ? & Hrole).
    destruct (IH c1 (reachable_step _ _ _ Hr E) Hrun) as (Hp' & ? & ? & ? & Hrole').
    split_and!; [by etrans|lia..|congruence].
Qed.

Lemma step_log_append (l : Label) (c c' : Config) (entry : list byte) :
  step l c = Some (Ok c') → is_append l entry →
  Z.of_nat (length (sync_log (node c')))
  = Z.of_nat (length (sync_log (node c))) + (Z.of_nat (length entry) + 4).
Proof.
  intros Hs [[t ->]|[cb ->]]; simpl in Hs.
  - destruct (Log_append (node c) entry) as [[m' last]|] eqn:E; [|done].
    injection Hs as <-. apply Log_append_Ok in E as (_ & _ & ->). simpl.
    rewrite length_app, Nat2Z.inj_add, frame_length. lia.
  - destruct (Log_async (node c) entry cb) as [m'|] eqn:E; [|done].
    injection Hs as <-. apply Log_async_Ok in E as (_ & ->). simpl.
    rewrite length_app, Nat2Z.inj_add, frame_length. lia.
Qed.

Lemma reachable_ideal_int (c : Config) :
  reachable c → Z.of_nat (length (sync_log (node c))) < 2 ^ 31 → reachable_int c.
Proof.
  induction 1 as [e m Hi Hl|c l c' Hc IH Hs]; intros Hb.
  - apply (reachable_int_init e); [done..|].
    destruct (Init_Ok _ _ Hi) as (content & _ & _ & Hf & Hcur & _).
    simpl in Hb. by rewrite Hcur, <- Hf.
  - pose proof (reachable_Inv _ Hc) as HI.
    assert (Hlen : Z.of_nat (length (sync_log (node c)))
                   ≤ Z.of_nat (length (sync_log (node c')))).
    { destruct (node_step_grows _ _ HI (step_node_step _ _ _ Hs)) as (Hp%prefix_length & _).
      lia. }
    apply (reachable_int_step c l); [apply IH; lia|].
    rewrite step_int_small; [done..|lia|].
    intros entry He. rewrite <- (step_log_append _ _ _ _ Hs He). done.
Qed.

(** X4.  Along every run of the leader's threads, from any configuration
    and whatever the size of the log, the log is only appended to (what was
    written stays where it is) and the read position of [read_log_] never
    decreases.  On a leader that [Init] has started, as long as the log is
    smaller than 2^31 bytes, [current_offset_] and [sync_offset_] never
    decrease either.  (They are [int]s: beyond that size
    [current_offset_ += len] wraps.) *)
Theorem log_append_only (ls : list Label) (c c' : Config) :
  run_int ls c = Some (Ok c') →
  sync_log (node c) `prefix_of` sync_log (node c')
  ∧ read_log_pos (node c) ≤ read_log_pos (node c')
  ∧ (reachable_int c → Z.of_nat (length (sync_log (node c'))) < 2 ^ 31 →
     current_offset_ (node c) ≤ current_offset_ (node c')
     ∧ sync_offset_ (node c) ≤ sync_offset_ (node c')).
Proof.
  intros Hrun. destruct (run_int_log _ _ _ Hrun) as (Hp & Hpos).
  split_and!; [done..|]. intros Hr Hb.
  pose proof (prefix_length _ _ Hp) as Hlen.
  assert (Hc : reachable c) by (apply reachable_int_ideal; [done|lia]).
  destruct (run_grows ls c c' Hc (run_int_ideal _ _ _ Hc Hrun Hb)) as (_ & ? & ? & _).
  done.
Qed.

Lemma log_append_only_witness :
  sync_log (node fresh) `prefix_of` sync_log (node sending_second)
  ∧ read_log_pos (node fresh) ≤ read_log_pos (node sending_second)
  ∧ (reachable_int fresh → Z.of_nat (length (sync_log (node sending_second))) < 2 ^ 31 →
     current_offset_ (node fresh) ≤ current_offset_ (node sending_second)
     ∧ sync_offset_ (node fresh) ≤ sync_offset_ (node sending_second)).
Proof.
  apply (log_append_only two_appends fresh sending_second). vm_compute. reflexivity.
Defined.

Lemma Init_opened (role : string) (pc content : list byte) :
  recovered_offset (Opened pc) ≤ Z.of_nat (length content) →
  Init (mkEnvironment role (Opened pc) (Opened content) None)
  = Ok (mkMasterSlaveImpl role content (recovered_offset (Opened pc))
          (Z.of_nat (length content)) (recovered_offset (Opened pc)) false ∅).
Proof.
  unfold Init, recovered_offset. simpl.
  destruct (Z.of_nat (length (file_read pc 0 4)) =? 4); simpl; intros Hle.
  - destruct (Z.leb_spec (decode_u32 (file_read pc 0 4)) (Z.of_nat (length content)));
      [done|lia].
  - destruct (Z.leb_spec 0 (Z.of_nat (length content))); [done|lia].
Qed.

Lemma recovered_offset_encode (s : Z) (rest : list byte) :
  0 ≤ s < 2 ^ 32 → recovered_offset (Opened (encode_u32 s ++ rest)) = s.
Proof. intros Hs. exact (decode_encode_u32 _ Hs). Qed.



Lemma std_map_insert_Some (k k' : Z) (v v' : Callback) (mp : gmap Z Callback) :
  std_map_insert k v mp !! k' = Some v' → k' = k ∨ mp !! k' = Some v'.
Proof.
  unfold std_map_insert. destruct (mp !! k); [by right|].
  intros [[<- _]|[_ ?]]%lookup_insert_Some; eauto.
Qed.

(** The keys of [callbacks_] are offsets of appends made in this run. *)
Lemma callbacks_keys_bound (b : Z) (ls : list Label) (c0 c : Config) :
  reachable c0 → b ≤ current_offset_ (node c0) →
  (∀ k cb, callbacks_ (node c0) !! k = Some cb → b ≤ k) →
  run ls c0 = Some (Ok c) →
  ∀ k cb, callbacks_ (node c) !! k = Some cb → b ≤ k.
Proof.
  revert c0. induction ls as [|l ls IH]; intros c0 Hr Hb Hk; simpl.
  - by intros [= <-].
  - destruct (step l c0) as [[c1|]|] eqn:E; [|done..].
    pose proof (step_node_step _ _ _ E) as Hn.
    destruct (node_step_grows c0 (node c1) (reachable_Inv _ Hr) Hn) as (_ & Hcur & _).
    apply IH; [by eapply reachable_step|lia|].
    destruct Hn as [b'|entry|entry cb|pos' Hw Hread|len entry cb Hw Hcb|len entry Hw]; simpl;
      try done.
    + intros k cb' [->|?]%std_map_insert_Some; [lia|by eapply Hk].
    + intros k cb' [_ ?]%lookup_delete_Some. by eapply Hk.
Qed.



(** ** The counters below 2^31 *)

Lemma callbacks_keys_nonneg (c : Config) :
  reachable c → ∀ k cb, callbacks_ (node c) !! k = Some cb → 0 ≤ k.
Proof.
  induction 1 as [e m Hi Hl|c l c' Hc IH Hs]; intros k cb.
  - destruct (Init_Ok _ _ Hi) as (content & _ & _ & _ & _ & _ & _ & _ & He).
    simpl. by rewrite He.
  - pose proof (reachable_Inv _ Hc) as HI. pose proof (inv_size _ HI) as Hz.
    destruct (step_node_step _ _ _ Hs)
      as [b'|entry|entry cb'|pos' Hw Hread|len entry cb' Hw Hcb|len entry Hw]; simpl;
      try apply IH.
    + intros [->|?]%std_map_insert_Some; [lia|by eapply IH].
    + intros [_ ?]%lookup_delete_Some. by eapply IH.
Qed.

(** X17.  As long as [sync.log] is smaller than 2^31 bytes no [int] of the
    code wraps: the configurations that the leader reaches with its counters
    stored as [int]s are those that it reaches with the sums computed in [Z],
    and there the counters are the positions in the file that they stand for:
    [current_offset_] is the size of [sync.log], and [sync_offset_] and the
    keys of [callbacks_] lie between 0 and it. *)
Theorem int_counters_below_2GiB (c : Config) :
  Z.of_nat (length (sync_log (node c))) < 2 ^ 31 →
  (reachable_int c ↔ reachable c)
  ∧ (reachable_int c →
     current_offset_ (node c) = Z.of_nat (length (sync_log (node c)))
     ∧ 0 ≤ sync_offset_ (node c) ≤ current_offset_ (node c)
     ∧ ∀ k cb, callbacks_ (node c) !! k = Some cb → 0 ≤ k < current_offset_ (node c)).
Proof.
  intros Hb. split; [split|].
  - intros Hr. by apply reachable_int_ideal.
  - intros Hr. by apply reachable_ideal_int.
  - intros Hr. pose proof (reachable_int_ideal _ Hr Hb) as Hc.
    pose proof (reachable_Inv _ Hc) as HI.
    pose proof (Inv_sync_le_frontier _ HI). pose proof (inv_frontier _ HI).
    pose proof (inv_read_pos _ HI). pose proof (inv_size _ HI) as Hz.
    pose proof (inv_sync_nonneg _ HI).
    split_and!; [done|done|lia|].
    intros k cb Hk. split; [|by apply (inv_keys _ HI k cb)].
    by apply (callbacks_keys_nonneg c Hc k cb).
Qed.

Lemma int_counters_below_2GiB_witness :
  (reachable_int sending_second ↔ reachable sending_second)
  ∧ (reachable_int sending_second →
     current_offset_ (node sending_second)
     = Z.of_nat (length (sync_log (node sending_second)))
     ∧ 0 ≤ sync_offset_ (node sending_second) ≤ current_offset_ (node sending_second)
     ∧ ∀ k cb, callbacks_ (node sending_second) !! k = Some cb →
         0 ≤ k < current_offset_ (node sending_second)).
Proof. apply int_counters_below_2GiB. vm_compute. reflexivity. Defined.

(** ** The follower's handler *)

Lemma AppendLog_eq (m : MasterSlaveImpl) (d : list byte) :
  AppendLog m d = Ok (set_sync_log m (sync_log m ++ frame d), d, true).
Proof.
  unfold AppendLog, write_log. simpl. rewrite Z.eqb_refl. simpl.
  unfold set_sync_log. simpl. by rewrite <- app_assoc, frame_eq.
Qed.

Lemma write_log_ret_all (m : MasterSlaveImpl) (d : list byte) :
  write_log_ret (write_log_ret m (encode_u32 (Z.of_nat (length d))) 4) d
    (Z.of_nat (length d))
  = set_sync_log m (sync_log m ++ frame d).
Proof.
  unfold write_log_ret, set_sync_log. simpl. rewrite Nat2Z.id, firstn_all.
  change (Z.to_nat 4) with 4%nat. simpl. by rewrite <- app_assoc, frame_eq.
Qed.

(** X7.  The follower's [AppendLog] answers exactly when both [write]
    calls transfer all their bytes and [RegisterCallback] has been called
    before: it has then written the record in the format of the leader's
    [LogLocal] (from equal logs, follower and leader end with the same file),
    called [log_callback_] with the payload and set [success] to true, and it
    has left [current_offset_] where it was.  When a [write] returns anything
    else an [assert] ends the process; when [log_callback_] is empty the
    record is written and the call throws without a response. *)
Theorem AppendLog_writes_as_LogLocal (f : Follower) (m : MasterSlaveImpl)
    (d : list byte) (ret1 ret2 : Z) :
  Z.of_nat (length d) < 2 ^ 31 → IsLeader m = true → sync_log (fnode f) = sync_log m →
  match AppendLog_rpc f d ret1 ret2 with
  | Answered f' cb arg success =>
      ret1 = 4 ∧ ret2 = Z.of_nat (length d) ∧ log_callback_ f = Some cb
      ∧ arg = d ∧ success = true
      ∧ AppendLog (fnode f) d = Ok (fnode f', d, true)
      ∧ (∃ m' n, LogLocal m d = Ok (m', n) ∧ sync_log (fnode f') = sync_log m')
      ∧ sync_log (fnode f') = sync_log (fnode f) ++ frame d
      ∧ current_offset_ (fnode f') = current_offset_ (fnode f)
      ∧ log_callback_ f' = log_callback_ f
  | AssertionFailed => ret1 ≠ 4 ∨ ret2 ≠ Z.of_nat (length d)
  | BadFunctionCall f' =>
      ret1 = 4 ∧ ret2 = Z.of_nat (length d) ∧ log_callback_ f = None
      ∧ sync_log (fnode f') = sync_log (fnode f) ++ frame d
  end.
Proof.
  intros Hb Hl Heq. unfold AppendLog_rpc.
  rewrite to_int_id by (change (2 ^ 31) with 2147483648 in *; lia).
  destruct (Z.eqb_spec ret1 4) as [->|]; simpl; [|by left].
  destruct (Z.eqb_spec ret2 (Z.of_nat (length d))) as [->|]; simpl; [|by right].
  fold (encode_u32 (Z.of_nat (length d))). rewrite write_log_ret_all.
  destruct (log_callback_ f) as [cb|] eqn:Hcb; simpl; [|done].
  split_and!; try done.
  - by rewrite AppendLog_eq.
  - rewrite LogLocal_leader by done. do 2 eexists. split; [done|].
    simpl. by rewrite Heq.
Qed.

Lemma AppendLog_writes_as_LogLocal_witness :
  ∃ f', AppendLog_rpc (RegisterCallback (mkFollower (follower fresh_cluster) None) 3%nat)
          ["a"%byte] 4 1
        = Answered f' 3%nat ["a"%byte] true
    ∧ sync_log (fnode f') = sync_log (node fresh) ++ frame ["a"%byte]
    ∧ AppendLog_rpc (mkFollower (follower fresh_cluster) None) ["a"%byte] 4 1
      = BadFunctionCall (mkFollower (fnode f') None)
    ∧ AppendLog_rpc (RegisterCallback (mkFollower (follower fresh_cluster) None) 3%nat)
        ["a"%byte] 4 0
      = AssertionFailed.
Proof.
  pose proof (AppendLog_writes_as_LogLocal
                (RegisterCallback (mkFollower (follower fresh_cluster) None) 3%nat)
                (node fresh) ["a"%byte] 4 1
                ltac:(vm_compute; reflexivity) eq_refl eq_refl) as H.
  destruct (AppendLog_rpc _ _ _ _) as [f' cb arg ok| |f'] eqn:E in H;
    [|vm_compute in E; discriminate..].
  destruct H as (_ & _ & _ & _ & _ & _ & _ & Hlog & _).
  exists f'. split; [|split; [exact Hlog|]].
  - rewrite E. vm_compute in E. injection E as <- <- <- <-. reflexivity.
  - vm_compute in E. injection E as <- _ _ _. split; vm_compute; reflexivity.
Defined.

(** ** Draining the backlog *)

Lemma step_read_record (c : Config) (len : Z) (e : list byte) (pos' : Z) :
  worker c = WorkerLoop → sync_offset_ (node c) < current_offset_ (node c) →
  read_record (sync_log (node c)) (read_log_pos (node c)) = Record_ len e pos' →
  step WorkerRead c
  = Some (Ok (mkConfig (set_read_log_pos (node c) pos') (WorkerSending len e)
                (calls c) (registered c) (invoked c))).
Proof.
  intros Hw Hlt Hr. simpl. rewrite Hw. unfold ReplicateLog_read. rewrite Hr.
  destruct (Z.ltb_spec (sync_offset_ (node c)) (current_offset_ (node c))); [done|lia].
Qed.

Lemma step_read_nothing (c : Config) :
  worker c = WorkerLoop → current_offset_ (node c) ≤ sync_offset_ (node c) →
  step WorkerRead c
  = Some (Ok (mkConfig (node c) WorkerLoop (calls c) (registered c) (invoked c))).
Proof.
  intros Hw Hle. simpl. rewrite Hw. unfold ReplicateLog_read.
  destruct (Z.ltb_spec (sync_offset_ (node c)) (current_offset_ (node c))); [lia|done].
Qed.

Lemma step_confirm_found (c : Config) (len : Z) (e : list byte) (cb : Callback) :
  worker c = WorkerSending len e →
  callbacks_ (node c) !! sync_offset_ (node c) = Some cb →
  step (WorkerRpc true) c
  = Some (Ok (mkConfig
                (set_callbacks (node c) (delete (sync_offset_ (node c)) (callbacks_ (node c))))
                (WorkerInCallback len e) (calls c) (registered c)
                (invoked c ++ [(sync_offset_ (node c), cb, true)]))).
Proof.
  intros Hw Hcb. simpl. rewrite Hw. unfold ReplicateLog_confirm. by rewrite Hcb.
Qed.

Lemma pending_lookup_lt (off k : Z) (l : list (list byte * Callback)) :
  k < off → pending off l !! k = None.
Proof.
  revert off. induction l as [|[p cb] l IH]; intros off Hlt; simpl; [done|].
  rewrite lookup_insert_ne by lia. apply IH. lia.
Qed.

Lemma pending_snoc (off : Z) (l : list (list byte * Callback)) (p : list byte) (cb : Callback) :
  pending off (l ++ [(p, cb)])
  = <[off + Z.of_nat (length (log_of l.*1)) := cb]> (pending off l).
Proof.
  revert off. induction l as [|[q cb'] l IH]; intros off.
  - simpl. by rewrite Z.add_0_r.
  - cbn [app pending]. rewrite IH. unfold log_of.
    rewrite fmap_cons. cbn [fst]. rewrite fmap_cons, concat_cons, length_app, Nat2Z.inj_add,
      frame_length.
    replace (off + (4 + Z.of_nat (length q) + Z.of_nat (length (concat (frame <$> l.*1)))))
      with (off + (4 + Z.of_nat (length q)) + Z.of_nat (length (concat (frame <$> l.*1))))
      by lia.
    apply insert_insert_ne. lia.
Qed.

(** Asynchronous appends on a leader whose backlog is [l0], all of it
    registered. *)
Lemma async_calls_run (l l0 : list (list byte * Callback)) (c : Config) :
  reachable c → worker c = WorkerLoop → follows c →
  drop (Z.to_nat (read_log_pos (node c))) (sync_log (node c)) = log_of l0.*1 →
  callbacks_ (node c) = pending (sync_offset_ (node c)) l0 →
  ∃ c', run (async_calls l) c = Some (Ok c')
    ∧ reachable c' ∧ worker c' = WorkerLoop ∧ follows c'
    ∧ drop (Z.to_nat (read_log_pos (node c'))) (sync_log (node c')) = log_of (l0 ++ l).*1
    ∧ callbacks_ (node c') = pending (sync_offset_ (node c')) (l0 ++ l)
    ∧ sync_offset_ (node c') = sync_offset_ (node c)
    ∧ invoked c' = invoked c.
Proof.
  revert l0 c. induction l as [|[p cb] l IH]; intros l0 c Hr Hw Hf Hd Hcb.
  - exists c. rewrite app_nil_r. simpl. split_and!; done.
  - pose proof (reachable_Inv _ Hr) as HI.
    cbn [async_calls fmap list_fmap run fst snd].
    cbn [step]. rewrite Log_async_leader by apply HI. cbn [mbind result_bind].
    set (c1 := mkConfig _ _ _ _ _).
    assert (Hs1 : step (CallLogAsync p cb) c = Some (Ok c1)).
    { cbn [step]. by rewrite Log_async_leader by apply HI. }
    pose proof (inv_read_pos _ HI) as Hrp. pose proof (inv_size _ HI) as Hz.
    pose proof (inv_sync_nonneg _ HI) as Hs0.
    assert (Hrs : read_log_pos (node c) = sync_offset_ (node c)).
    { unfold follows, frontier in Hf. by rewrite Hw in Hf. }
    assert (Hcur : current_offset_ (node c)
                   = sync_offset_ (node c) + Z.of_nat (length (log_of l0.*1))).
    { rewrite <- Hd, length_drop. lia. }
    destruct (IH (l0 ++ [(p, cb)]) c1) as (c' & Hrun & ? & ? & ? & Hd' & Hcb' & Hs' & Hi').
    + by eapply reachable_step.
    + done.
    + unfold follows, frontier. simpl. by rewrite Hw.
    + simpl. rewrite drop_app_le by lia. rewrite Hd. unfold log_of.
      rewrite !fmap_app, concat_app. simpl. by rewrite app_nil_r.
    + simpl. unfold std_map_insert. rewrite (Inv_callbacks_fresh_key _ HI).
      rewrite pending_snoc, Hcb, Hcur. done.
    + exists c'. rewrite <- app_assoc in Hd', Hcb'. split_and!; done.
Qed.

(** With the worker alone, the follower answering, and a backlog [l] of
    whole records that all have their callback, [ReplicateLog] drains it. *)
Lemma ReplicateLog_drains (l : list (list byte * Callback)) (c : Config) :
  reachable c → worker c = WorkerLoop → follows c →
  Forall (λ a, Z.of_nat (length a.1) < 2 ^ 32) l →
  drop (Z.to_nat (read_log_pos (node c))) (sync_log (node c)) = log_of l.*1 →
  callbacks_ (node c) = pending (sync_offset_ (node c)) l →
  ∃ c', ReplicateLog (S (length l)) c = Some (Ok c')
    ∧ worker c' = WorkerLoop
    ∧ sync_offset_ (node c') = current_offset_ (node c')
    ∧ current_offset_ (node c') = current_offset_ (node c)
    ∧ sync_log (node c') = sync_log (node c)
    ∧ callbacks_ (node c') = ∅
    ∧ registered c' = registered c
    ∧ invoked c' = invoked c ++ calls_of (sync_offset_ (node c)) l.
Proof.
  revert c. induction l as [|[p cb] l IH]; intros c Hr Hw Hf Hb Hd Hcb;
    pose proof (reachable_Inv _ Hr) as HI;
    pose proof (inv_read_pos _ HI) as Hrp; pose proof (inv_size _ HI) as Hz;
    pose proof (inv_sync_nonneg _ HI) as Hs0;
    assert (Hrs : read_log_pos (node c) = sync_offset_ (node c))
      by (unfold follows, frontier in Hf; by rewrite Hw in Hf).
  - apply (f_equal length) in Hd. rewrite length_drop in Hd. simpl in Hd.
    cbn [ReplicateLog length]. rewrite step_read_nothing by (done || lia). simpl.
    eexists. split; [done|]. simpl. rewrite app_nil_r. split_and!; try done. lia.
  - apply Forall_cons in Hb as [Hp Hb]. cbn [fst] in Hp.
    rewrite fmap_cons in Hd. cbn [fst] in Hd. unfold log_of in Hd.
    rewrite fmap_cons, concat_cons in Hd. fold (log_of l.*1) in Hd.
    pose proof (take_drop (Z.to_nat (read_log_pos (node c))) (sync_log (node c))) as Htd.
    rewrite Hd in Htd.
    assert (Hlen : Z.of_nat (length (take (Z.to_nat (read_log_pos (node c)))
                                       (sync_log (node c)))) = read_log_pos (node c))
      by (rewrite length_take; lia).
    remember (take (Z.to_nat (read_log_pos (node c))) (sync_log (node c))) as pre eqn:Hpre.
    assert (Hread : read_record (sync_log (node c)) (read_log_pos (node c))
                    = Record_ (Z.of_nat (length p)) p
                        (read_log_pos (node c) + 4 + Z.of_nat (length p))).
    { rewrite <- Htd, <- Hlen. by apply read_record_frame. }
    assert (Hlt : sync_offset_ (node c) < current_offset_ (node c)).
    { rewrite <- Hz, <- Htd, !length_app, !Nat2Z.inj_add, frame_length. lia. }
    pose proof (step_read_record c _ _ _ Hw Hlt Hread) as Hs1.
    set (c1 := mkConfig _ _ _ _ _) in Hs1.
    assert (Hcb1 : callbacks_ (node c1) !! sync_offset_ (node c1) = Some cb).
    { simpl. rewrite Hcb. simpl. apply lookup_insert_eq. }
    pose proof (step_confirm_found c1 _ _ _ eq_refl Hcb1) as Hs2.
    set (c2 := mkConfig _ _ _ _ _) in Hs2.
    assert (Hs3 : step WorkerCallbackReturns c2
                  = Some (Ok (mkConfig (ReplicateLog_advance (node c2) (Z.of_nat (length p))).1
                                WorkerLoop (calls c2) (registered c2) (invoked c2)))) by done.
    set (c3 := mkConfig _ _ _ _ _) in Hs3.
    change (ReplicateLog (S (length ((p, cb) :: l))) c)
      with (match step WorkerRead c with
            | Some (Ok c1) =>
                match worker c1 with
                | WorkerSending _ _ =>
                    match step (WorkerRpc true) c1 with
                    | Some (Ok c2) =>
                        match worker c2 with
                        | WorkerInCallback _ _ =>
                            match step WorkerCallbackReturns c2 with
                            | Some (Ok c3) => ReplicateLog (S (length l)) c3
                            | r => r
                            end
                        | _ => ReplicateLog (S (length l)) c2
                        end
                    | r => r
                    end
                | _ => Some (Ok c1)
                end
            | r => r
            end).
    rewrite Hs1. cbn [worker c1]. rewrite Hs2. cbn [worker c2]. rewrite Hs3.
    destruct (IH c3) as (c' & Hrun & ? & ? & Hcur' & Hlog' & ? & Hreg' & Hinv').
    + eapply reachable_step; [|exact Hs3]. eapply reachable_step; [|exact Hs2].
      by eapply reachable_step.
    + done.
    + unfold follows, frontier. simpl. lia.
    + done.
    + simpl. rewrite <- Htd at 1. rewrite app_assoc.
      replace (Z.to_nat (read_log_pos (node c) + 4 + Z.of_nat (length p)))
        with (length (pre ++ frame p)).
      * apply drop_app_length.
      * rewrite length_app. pose proof (frame_length p). lia.
    + simpl. rewrite Hcb. simpl. apply delete_insert_id.
      apply pending_lookup_lt. lia.
    + exists c'. split; [exact Hrun|]. simpl in *.
      rewrite Hinv', <- app_assoc. split_and!; done.
Qed.



(** ** Reading the log that [Log] wrote *)



(** ** The degraded mode as the code has it *)

(** X10.  [master_only_] is written by the callers of the synchronous [Log]
    only: set at lines 103-106, reached when the loop condition is false
    (caught up, or clock at [stop_point]) or when [TimeWait] returns false;
    cleared at line 95, after [TimeWait] returned true with nothing left to
    replicate.  No step of the worker and no asynchronous append changes it. *)
Lemma master_only_transitions (l : Label) (c c' : Config) :
  step l c = Some (Ok c') →
  master_only_ (node c') ≠ master_only_ (node c) →
  ∃ tid call, calls c !! tid = Some call
    ∧ ((∃ now, l = SyncLoop tid now ∧ pc call = AtLoop
          ∧ (sync_offset_ (node c) = current_offset_ (node c) ∨ stop_point call ≤ now)
          ∧ master_only_ (node c') = true)
       ∨ (l = SyncWake tid false ∧ pc call = InWait ∧ master_only_ (node c') = true)
       ∨ (l = SyncWake tid true ∧ pc call = InWait
          ∧ sync_offset_ (node c) = current_offset_ (node c)
          ∧ master_only_ (node c') = false)).
Proof.
  intros Hs Hne.
  destruct l as [entry t|tid now|tid now|tid sg|entry cb| |ok|]; simpl in Hs.
  - destruct (Log_append (node c) entry) as [[m' last]|] eqn:E; [|done].
    injection Hs as <-. by apply Log_append_Ok in E as (_ & _ & ->).
  - apply step_call_Ok in Hs as (call & _ & _ & ->). simpl in Hne.
    destruct (Log_check _ _ _) eqn:E. by apply Log_check_frame in E as (-> & _).
  - apply step_call_Ok in Hs as (call & Hcall & Hpc & ->). simpl in *.
    exists tid, call. split; [done|]. left. exists now.
    unfold Log_loop in *.
    destruct (Z.eqb_spec (sync_offset_ (node c)) (current_offset_ (node c)));
      destruct (Z.ltb_spec now (stop_point call)); simpl in *; try done;
      split_and!; try done; eauto.
  - apply step_call_Ok in Hs as (call & Hcall & Hpc & ->). simpl in *.
    exists tid, call. split; [done|]. right. unfold Log_wake in *.
    destruct sg; [right|left; done].
    destruct (Z.eqb_spec (sync_offset_ (node c)) (current_offset_ (node c)));
      simpl in *; [|done].
    destruct (master_only_ (node c)) eqn:Hm; simpl in *; [done|]. by rewrite Hm in Hne.
  - destruct (Log_async (node c) entry cb) as [m'|] eqn:E; [|done].
    injection Hs as <-. by apply Log_async_Ok in E as (_ & ->).
  - destruct (worker c); [|done..]. unfold ReplicateLog_read in Hs.
    destruct (negb _); [by injection Hs as <-|].
    destruct (read_record _ _); [done|..]; by injection Hs as <-.
  - destruct (worker c); [done| |done]. destruct ok; [|by injection Hs as <-].
    unfold ReplicateLog_confirm in Hs. destruct (_ !! _); [by injection Hs as <-|].
    destruct (negb _); [done|]. by injection Hs as <-.
  - destruct (worker c); [done..|]. by injection Hs as <-.
Qed.

Lemma master_only_transitions_witness :
  ∃ c c', run [CallLogSync ["a"%byte] 0; SyncCheck 0%nat 0] fresh = Some (Ok c)
    ∧ step (SyncLoop 0%nat 0) c = Some (Ok c')
    ∧ ∃ tid call, calls c !! tid = Some call
        ∧ ((∃ now, SyncLoop 0%nat 0 = SyncLoop tid now ∧ pc call = AtLoop
              ∧ (sync_offset_ (node c) = current_offset_ (node c) ∨ stop_point call ≤ now)
              ∧ master_only_ (node c') = true)
           ∨ (SyncLoop 0%nat 0 = SyncWake tid false ∧ pc call = InWait
              ∧ master_only_ (node c') = true)
           ∨ (SyncLoop 0%nat 0 = SyncWake tid true ∧ pc call = InWait
              ∧ sync_offset_ (node c) = current_offset_ (node c)
              ∧ master_only_ (node c') = false)).
Proof.
  eexists _, _. split; [vm_compute; reflexivity|]. split; [vm_compute; reflexivity|].
  apply master_only_transitions; [vm_compute; reflexivity|vm_compute; discriminate].
Defined.



(** ** Leader and follower together *)

Lemma byte_of_Z_of_byte (a : Z) (b : byte) : a mod 256 = Z_of_byte b → byte_of_Z a = b.
Proof.
  intros H. unfold byte_of_Z. rewrite H. unfold Z_of_byte.
  by rewrite N2Z.id, Byte.of_to_N.
Qed.

(** Any four bytes are the header of the length they decode to. *)
Lemma encode_decode_u32 (buf : list byte) :
  length buf = 4%nat → encode_u32 (decode_u32 buf) = buf.
Proof.
  destruct buf as [|b0 [|b1 [|b2 [|b3 [|]]]]]; try done. intros _.
  unfold encode_u32, decode_u32.
  pose proof (Z_of_byte_range b0). pose proof (Z_of_byte_range b1).
  pose proof (Z_of_byte_range b2). pose proof (Z_of_byte_range b3).
  set (n := Z_of_byte b0 + 256 * Z_of_byte b1 + 65536 * Z_of_byte b2
            + 16777216 * Z_of_byte b3).
  assert (E0 : byte_of_Z n = b0)
    by (apply byte_of_Z_of_byte; subst n; Z.div_mod_to_equations; lia).
  assert (E1 : byte_of_Z (n / 256) = b1)
    by (apply byte_of_Z_of_byte; subst n; Z.div_mod_to_equations; lia).
  assert (E2 : byte_of_Z (n / 65536) = b2)
    by (apply byte_of_Z_of_byte; subst n; Z.div_mod_to_equations; lia).
  assert (E3 : byte_of_Z (n / 16777216) = b3)
    by (apply byte_of_Z_of_byte; subst n; Z.div_mod_to_equations; lia).
  by rewrite E0, E1, E2, E3.
Qed.

(** The bytes that a whole read takes off the file are the record's frame. *)
Lemma read_record_take (file : list byte) (pos len pos' : Z) (e : list byte) :
  0 ≤ pos → read_record file pos = Record_ len e pos' →
  take (Z.to_nat pos') file = take (Z.to_nat pos) file ++ frame e.
Proof.
  intros Hp. unfold read_record.
  destruct (Z.ltb_spec (Z.of_nat (length (file_read file pos 4))) 4) as [|H4]; [done|].
  assert (Hb : length (file_read file pos 4) = 4%nat).
  { unfold file_read in *. rewrite length_take in *. lia. }
  rewrite Hb. change (Z.of_nat 4) with 4.
  pose proof (decode_u32_range (file_read file pos 4)) as Hr.
  destruct (Z.ltb_spec
              (Z.of_nat (length (file_read file (pos + 4) (decode_u32 (file_read file pos 4)))))
              (decode_u32 (file_read file pos 4))) as [|Hl]; [done|].
  intros [= <- <- <-].
  assert (He : Z.of_nat (length (file_read file (pos + 4) (decode_u32 (file_read file pos 4))))
               = decode_u32 (file_read file pos 4)).
  { revert Hr Hl. generalize (decode_u32 (file_read file pos 4)). intros len0 Hr Hl.
    unfold file_read in Hl |- *. rewrite length_take in Hl |- *. lia. }
  rewrite frame_eq, He, encode_decode_u32 by done.
  replace (Z.to_nat (pos + 4 + decode_u32 (file_read file pos 4)))
    with (Z.to_nat pos + (4 + Z.to_nat (decode_u32 (file_read file pos 4))))%nat by lia.
  rewrite <- take_take_drop. f_equal.
  rewrite <- take_take_drop, drop_drop. unfold file_read.
  change (Z.to_nat 4) with 4%nat.
  by replace (Z.to_nat (pos + 4)) with (Z.to_nat pos + 4)%nat by lia.
Qed.

Lemma log_of_snoc (ps : list (list byte)) (p : list byte) :
  log_of (ps ++ [p]) = log_of ps ++ frame p.
Proof. unfold log_of. rewrite fmap_app, concat_app. simpl. by rewrite app_nil_r. Qed.

Lemma on_leader_Ok (cl cl' : Cluster) (r : option (result Config)) :
  on_leader cl r = Some (Ok cl') →
  ∃ c', r = Some (Ok c') ∧ cl' = mkCluster c' (follower cl) (applied cl).
Proof. destruct r as [[c'|]|]; simpl; [|done..]. intros [= <-]. by exists c'. Qed.

Lemma acked_upto_le (c : Config) :
  Inv c → 0 ≤ acked_upto c ≤ Z.of_nat (length (sync_log (node c))).
Proof.
  intros HI. pose proof (inv_sync_nonneg _ HI). pose proof (inv_frontier _ HI) as Hf.
  pose proof (inv_read_pos _ HI). pose proof (inv_record _ HI) as Hr.
  unfold acked_upto, frontier, worker_record_ok in *.
  destruct (worker c); [lia| |]; destruct Hr as (-> & _); lia.
Qed.

(** [acked_upto] moves only when [SendRequest] returns true. *)
Lemma acked_upto_step (l : Label) (c c' : Config) :
  step l c = Some (Ok c') → l ≠ WorkerRpc true → acked_upto c' = acked_upto c.
Proof.
  intros Hs Hne. unfold acked_upto.
  destruct l as [entry t|tid now|tid now|tid sg|entry cb| |ok|].
  - simpl in Hs. destruct (Log_append (node c) entry) as [[m' last]|] eqn:E; [|done].
    injection Hs as <-. by apply Log_append_Ok in E as (_ & _ & ->).
  - apply step_sync_frame in Hs as ([b ->] & -> & _); [done|]. left. eauto.
  - apply step_sync_frame in Hs as ([b ->] & -> & _); [done|]. left. eauto.
  - apply step_sync_frame in Hs as ([b ->] & -> & _); [done|]. right. eauto.
  - simpl in Hs. destruct (Log_async (node c) entry cb) as [m'|] eqn:E; [|done].
    injection Hs as <-. by apply Log_async_Ok in E as (_ & ->).
  - simpl in Hs. destruct (worker c); [|done..]. unfold ReplicateLog_read in Hs.
    destruct (negb _); [by injection Hs as <-|].
    destruct (read_record _ _); [done|..]; by injection Hs as <-.
  - destruct ok; [done|]. simpl in Hs. destruct (worker c) eqn:Hw; [done| |done].
    injection Hs as <-. by rewrite Hw.
  - simpl in Hs. destruct (worker c); [done..|]. by injection Hs as <-.
Qed.

Lemma acked_upto_confirm (c c' : Config) (len : Z) (e : list byte) :
  worker c = WorkerSending len e → step (WorkerRpc true) c = Some (Ok c') →
  acked_upto c = sync_offset_ (node c)
  ∧ acked_upto c' = sync_offset_ (node c) + (4 + len)
  ∧ sync_log (node c') = sync_log (node c).
Proof.
  intros Hw Hs. unfold acked_upto. simpl in Hs. rewrite Hw in Hs |- *.
  unfold ReplicateLog_confirm in Hs. destruct (_ !! _).
  - by injection Hs as <-.
  - destruct (negb _); [done|]. by injection Hs as <-.
Qed.

Lemma cluster_inv_step (lossless : bool) (l : ClusterLabel) (cl cl' : Cluster) :
  cluster_inv lossless cl → cluster_small l → (lossless = true → no_lost_reply l) →
  cluster_step l cl = Some (Ok cl') → cluster_inv lossless cl'.
Proof.
  intros (Hr & Hf & Hw & Hlog & acked & Hack & Hsub & Hall) Hsm Hnl Hs.
  pose proof (reachable_Inv _ Hr) as HI.
  assert (Hleader : ∀ l' c', l' ≠ WorkerRpc true → small_payload l' →
            step l' (leader cl) = Some (Ok c') →
            cluster_inv lossless (mkCluster c' (follower cl) (applied cl))).
  { intros l' c' Hne Hsm' Hs'.
    destruct (whole_records_step _ _ _ Hr Hf Hw Hsm' Hs') as [Hf' Hw'].
    split_and!; [by eapply reachable_step|done..|].
    exists acked. split_and!; [|done..]. simpl.
    rewrite (acked_upto_step _ _ _ Hs' Hne).
    destruct (node_step_grows _ _ HI (step_node_step _ _ _ Hs')) as ([k Hk] & _).
    rewrite Hk, take_app_le; [done|]. pose proof (acked_upto_le _ HI). lia. }
  destruct l as [l'|d].
  - assert (Hs2 : on_leader cl (step l' (leader cl)) = Some (Ok cl') ∧ l' ≠ WorkerRpc true)
      by (destruct l'; done).
    destruct Hs2 as [(c' & Hs' & ->)%on_leader_Ok Hne]. by eapply Hleader.
  - cbn [cluster_step] in Hs.
    destruct (worker (leader cl)) as [|len e|] eqn:Hwk; [done| |done].
    pose proof (inv_record _ HI) as Hrec. rewrite Hwk in Hrec.
    destruct Hrec as (Hlen & _ & _).
    assert (Htake : take (Z.to_nat len) e = e) by (apply take_ge; lia).
    destruct d.
    + apply on_leader_Ok in Hs as (c' & Hs' & ->). by apply (Hleader (WorkerRpc false)).
    + unfold deliver in Hs. rewrite AppendLog_eq, Htake in Hs.
      apply on_leader_Ok in Hs as (c' & Hs' & ->). simpl in Hs'. rewrite Hwk in Hs'.
      injection Hs' as <-.
      split_and!; [done..| |].
      * simpl. by rewrite log_of_snoc, Hlog.
      * exists acked. split_and!; [done| |].
        -- by apply sublist_inserts_r.
        -- intros Hl. by destruct (Hnl Hl).
    + unfold deliver in Hs. rewrite AppendLog_eq, Htake in Hs.
      apply on_leader_Ok in Hs as (c' & Hs' & ->).
      destruct (whole_records_step (WorkerRpc true) _ _ Hr Hf Hw I Hs') as [Hf' Hw'].
      destruct (acked_upto_confirm _ _ _ _ Hwk Hs') as (Ha & Ha' & Hl').
      pose proof (record_in_hand_is_at_sync_offset _ _ _ Hr Hf Hwk) as Hread.
      apply read_record_take in Hread; [|apply HI].
      split_and!; [by eapply reachable_step|done..| |].
      * simpl. by rewrite log_of_snoc, Hlog.
      * exists (acked ++ [e]). simpl. split_and!.
        -- by rewrite log_of_snoc, Hack, Ha', Hl', Hread, Ha.
        -- by apply sublist_app.
        -- intros Hl. by rewrite (Hall Hl).
Qed.

Lemma cluster_inv_run (lossless : bool) (ls : list ClusterLabel) (cl cl' : Cluster) :
  cluster_inv lossless cl → Forall cluster_small ls →
  (lossless = true → Forall no_lost_reply ls) →
  cluster_run ls cl = Some (Ok cl') → cluster_inv lossless cl'.
Proof.
  revert cl. induction ls as [|l ls IH]; intros cl HI Hsm Hnl; simpl.
  - by intros [= <-].
  - apply Forall_cons in Hsm as [Hl Hsm].
    destruct (cluster_step l cl) as [[cl1|]|] eqn:E; [|done..].
    apply IH; [|done|].
    + eapply cluster_inv_step; [done..| |done].
      intros Hb. by apply Forall_cons in Hnl as [? _].
    + intros Hb. by apply Forall_cons in Hnl as [_ ?].
Qed.

Lemma cluster_inv_fresh (lossless : bool) : cluster_inv lossless fresh_cluster.
Proof.
  split_and!; [apply reachable_fresh|done|by exists []|done|].
  exists []. split_and!; done.
Qed.





(** X14.  [AppendLog] does not recognise a request it has handled before.
    When the follower handles the request for a record but [SendRequest]
    returns false, the loop of lines 192-197 sends the same request again:
    once that one is answered the follower has written the record twice and
    called [log_callback_] twice with it, while the leader has gone forward by
    one record. *)
Theorem lost_reply_duplicates_record (cl cl' : Cluster) (e : list byte) :
  worker (leader cl) = WorkerSending (Z.of_nat (length e)) e →
  cluster_run [Send DeliveredNoReply; Send Replied] cl = Some (Ok cl') →
  sync_log (follower cl') = sync_log (follower cl) ++ frame e ++ frame e
  ∧ applied cl' = applied cl ++ [e; e]
  ∧ acked_upto (leader cl')
    = sync_offset_ (node (leader cl)) + (4 + Z.of_nat (length e))
  ∧ sync_log (node (leader cl')) = sync_log (node (leader cl)).
Proof.
  intros Hwk. cbn [cluster_run cluster_step]. rewrite Hwk.
  assert (Htake : take (Z.to_nat (Z.of_nat (length e))) e = e) by (apply take_ge; lia).
  unfold deliver at 1. rewrite AppendLog_eq, Htake.
  assert (Hs1 : step (WorkerRpc false) (leader cl) = Some (Ok (leader cl)))
    by (simpl; by rewrite Hwk).
  rewrite Hs1. cbn [on_leader leader follower applied]. rewrite Hwk.
  unfold deliver. rewrite AppendLog_eq, Htake. cbn [leader follower applied].
  intros Hs. destruct (on_leader _ _) as [[cl2|]|] eqn:E; [|done..].
  injection Hs as ->.
  apply on_leader_Ok in E as (c' & Hs' & ->). cbn [leader follower applied].
  destruct (acked_upto_confirm _ _ _ _ Hwk Hs') as (_ & Ha' & Hl').
  split_and!; [|by rewrite <- app_assoc|done..].
  simpl. by rewrite <- app_assoc.
Qed.

Lemma lost_reply_duplicates_record_witness :
  ∃ cl cl', cluster_run [OnLeader (CallLogAsync ["a"%byte] 7%nat); OnLeader WorkerRead]
              fresh_cluster = Some (Ok cl)
    ∧ cluster_run [Send DeliveredNoReply; Send Replied] cl = Some (Ok cl')
    ∧ sync_log (follower cl') = sync_log (follower cl) ++ frame ["a"%byte] ++ frame ["a"%byte]
    ∧ applied cl' = applied cl ++ [["a"%byte]; ["a"%byte]]
    ∧ acked_upto (leader cl')
      = sync_offset_ (node (leader cl)) + (4 + Z.of_nat (length ["a"%byte]))
    ∧ sync_log (node (leader cl')) = sync_log (node (leader cl)).
Proof.
  eexists _, _. split; [vm_compute; reflexivity|].
  split; [vm_compute; reflexivity|].
  apply (lost_reply_duplicates_record _ _ ["a"%byte]); vm_compute; reflexivity.
Defined.

(** ** The callbacks *)

(** X15.  In every configuration that the leader reaches: an asynchronous
    append registers its callback in [callbacks_] under the value
    [current_offset_] had before the increment, which is where its record
    lies in the file.  The worker's step that gets a record confirmed removes
    the entry found under [sync_offset_] and invokes it with [true] (the
    record is the one that lies at [sync_offset_], as long as the read
    position has followed [sync_offset_]); no other step invokes a callback.
    So at any time each registered callback is either still in the map and
    not invoked, or out of the map and invoked; no key is invoked twice, and
    no callback is invoked with [false]. *)
Theorem async_callback_invoked_once (c : Config) :
  reachable c →
  (∀ entry cb, ∃ c',
      step (CallLogAsync entry cb) c = Some (Ok c')
      ∧ callbacks_ (node c') !! current_offset_ (node c) = Some cb
      ∧ registered c' = registered c ++ [(current_offset_ (node c), cb)]
      ∧ file_read (sync_log (node c')) (current_offset_ (node c))
          (Z.of_nat (length (frame entry))) = frame entry
      ∧ current_offset_ (node c')
        = current_offset_ (node c) + Z.of_nat (length (frame entry)))
  ∧ (∀ len entry cb,
      worker c = WorkerSending len entry →
      callbacks_ (node c) !! sync_offset_ (node c) = Some cb →
      (follows c →
       read_record (sync_log (node c)) (sync_offset_ (node c))
       = Record_ len entry (sync_offset_ (node c) + (4 + len)))
      ∧ ∃ c', step (WorkerRpc true) c = Some (Ok c')
          ∧ callbacks_ (node c') = delete (sync_offset_ (node c)) (callbacks_ (node c))
          ∧ invoked c' = invoked c ++ [(sync_offset_ (node c), cb, true)])
  ∧ (∀ l c', step l c = Some (Ok c') →
      invoked c' = invoked c
      ∨ ∃ len entry cb, l = WorkerRpc true ∧ worker c = WorkerSending len entry
          ∧ callbacks_ (node c) !! sync_offset_ (node c) = Some cb
          ∧ invoked c' = invoked c ++ [(sync_offset_ (node c), cb, true)])
  ∧ (∀ k cb, (k, cb) ∈ registered c →
      (callbacks_ (node c) !! k = Some cb ∧ ∀ cb' b, (k, cb', b) ∉ invoked c)
      ∨ (callbacks_ (node c) !! k = None ∧ (k, cb, true) ∈ invoked c))
  ∧ NoDup ((λ ev, ev.1.1) <$> invoked c)
  ∧ (∀ k cb b, (k, cb, b) ∈ invoked c → b = true ∧ (k, cb) ∈ registered c).
Proof.
  intros Hreach. pose proof (reachable_Inv _ Hreach) as HI. split_and!.
  - intros entry cb. simpl. rewrite Log_async_leader by apply HI. simpl.
    eexists. split; [done|]. simpl. unfold std_map_insert.
    rewrite (Inv_callbacks_fresh_key _ HI). split_and!; [apply lookup_insert_eq|done| |].
    + rewrite <- (inv_size _ HI). apply file_read_at_end.
    + rewrite frame_length. lia.
  - intros len entry cb Hw Hcb. split.
    { intros Hf. by apply record_in_hand_is_at_sync_offset. }
    simpl. rewrite Hw. unfold ReplicateLog_confirm.
    rewrite Hcb. simpl. eexists. done.
  - intros l c' Hs.
    destruct l as [entry t|tid now|tid now|tid sg|entry cb| |ok|].
    + simpl in Hs. destruct (Log_append _ _) as [[??]|]; [|done]. injection Hs as <-. by left.
    + apply step_sync_frame in Hs as (_ & _ & _ & ?); [by left|left; eauto].
    + apply step_sync_frame in Hs as (_ & _ & _ & ?); [by left|left; eauto].
    + apply step_sync_frame in Hs as (_ & _ & _ & ?); [by left|right; eauto].
    + simpl in Hs. destruct (Log_async _ _ _); [|done]. injection Hs as <-. by left.
    + simpl in Hs. destruct (worker c); [|done..].
      destruct (ReplicateLog_read _) as [[??]|]; [|done]. injection Hs as <-. by left.
    + simpl in Hs. destruct (worker c) as [|len entry|] eqn:Hw; [done| |done].
      destruct ok; [|injection Hs as <-; by left].
      unfold ReplicateLog_confirm in Hs.
      destruct (callbacks_ (node c) !! sync_offset_ (node c)) as [cb|] eqn:Hcb.
      * injection Hs as <-. right. by exists len, entry, cb.
      * destruct (negb _); [done|]. injection Hs as <-. left. simpl. apply app_nil_r.
    + simpl in Hs. destruct (worker c); [done..|]. injection Hs as <-. by left.
  - intros k cb Hin. destruct (inv_registered _ HI _ _ Hin) as [_ [Hp|Hv]].
    + left. split; [done|]. intros cb' b Hv.
      destruct (inv_invoked _ HI _ _ _ Hv) as (_ & _ & Hn). congruence.
    + right. split; [|done]. by destruct (inv_invoked _ HI _ _ _ Hv) as (_ & _ & Hn).
  - apply HI.
  - intros k cb b Hv. by destruct (inv_invoked _ HI _ _ _ Hv) as (? & ? & _).
Qed.

Lemma async_callback_invoked_once_witness :
  reachable sending_second
  ∧ NoDup ((λ ev, ev.1.1) <$> invoked sending_second)
  ∧ (∀ k cb b, (k, cb, b) ∈ invoked sending_second →
       b = true ∧ (k, cb) ∈ registered sending_second).
Proof.
  assert (H : reachable sending_second).
  { apply (reachable_run two_appends fresh).
    - apply (reachable_init fresh_env); reflexivity.
    - vm_compute. reflexivity. }
  split; [exact H|]. apply (async_callback_invoked_once sending_second H).
Defined.

(** X16.  In every configuration that the leader reaches: a record appended
    through the synchronous [Log] lies in the file at the call's
    [last_offset], and no entry is ever inserted into [callbacks_] for that
    offset: none has been given to [insert], and the map has none.  So when
    the offset is not zero and the worker gets that record confirmed with
    [sync_offset_] at that offset (which it is whenever the read position has
    followed [sync_offset_]), the lookup misses and the step ends in the
    [assert(0)] of line 214. *)
Theorem sync_append_has_no_callback (c : Config) (tid : nat) (call : SyncCall) :
  reachable c → calls c !! tid = Some call →
  file_read (sync_log (node c)) (last_offset call)
    (Z.of_nat (length (frame (entry call)))) = frame (entry call)
  ∧ (∀ cb, (last_offset call, cb) ∉ registered c)
  ∧ callbacks_ (node c) !! last_offset call = None
  ∧ (last_offset call ≠ 0 →
     ∀ len e, worker c = WorkerSending len e →
       sync_offset_ (node c) = last_offset call
       ∨ (follows c ∧ read_log_pos (node c) = last_offset call + (4 + len)) →
       step (WorkerRpc true) c = Some Fatal).
Proof.
  intros HI%reachable_Inv Hcall.
  destruct (inv_calls _ HI _ _ Hcall) as (H0 & Hle & Hfile & Hnone & Hreg).
  split_and!; [by rewrite frame_length|done..|].
  intros Hnz len e Hw Hor.
  assert (Hs : sync_offset_ (node c) = last_offset call).
  { destruct Hor as [?|[Hf Hp]]; [done|].
    unfold follows, frontier in Hf. rewrite Hw in Hf. lia. }
  simpl. rewrite Hw. unfold ReplicateLog_confirm.
  rewrite Hs, Hnone. destruct (Z.eqb_spec (last_offset call) 0); done.
Qed.

Lemma sync_append_has_no_callback_witness :
  reachable sending_second
  ∧ sending_second.(calls) !! 0%nat = Some (mkSyncCall AtCheck ["b"; "c"]%byte 1000 5 0)
  ∧ step (WorkerRpc true) sending_second = Some Fatal.
Proof.
  assert (H : reachable sending_second).
  { apply (reachable_run two_appends fresh).
    - apply (reachable_init fresh_env); reflexivity.
    - vm_compute. reflexivity. }
  split; [exact H|]. split; [reflexivity|].
  refine (proj2 (proj2 (proj2 (sync_append_has_no_callback sending_second 0%nat _ H eq_refl)))
            _ 2 ["b"; "c"]%byte eq_refl (or_intror (conj eq_refl eq_refl))).
  simpl. lia.
Defined.
